(** * GLISTER greedy subset selection (cords, glisterstrategy.py)

    A shallow embedding of [GLISTERStrategy.select] and of the helpers it
    calls, followed by the properties of the selection loop.

    Conventions of the embedding:
    - element indices are [nat]; Python integers that may be negative
      ([budget], [r], [numSelected]) are [Z];
    - tensor entries are idealised as exact integers ([Z]); every concrete
      cache used below holds small integers, which binary floating point
      represents and adds exactly;
    - the tensor [self.grads_per_elem] is a shared store (a list of rows);
      [grads_currX] is either a view of one of its rows or a tensor that
      owns its storage, because [t[i].view(1, -1)] shares storage with [t]
      while [t[list].sum(dim=0)] allocates;
    - exceptions and the running out of loop fuel are results that carry the
      state of the object at that moment. *)

From Stdlib Require Import ZArith List Lia Bool String Permutation Sorted.
From Stdlib Require Import Floats.SpecFloat.
From stdpp Require Import base option list sorting.

Open Scope Z_scope.

(* ===================================================================== *)
(** ** Python built-ins used by [select] *)
(* ===================================================================== *)

Module Py.

Inductive exn : Type :=
| ZeroDivisionError
| ValueError
| IndexError
| RuntimeError
| UnboundLocalError
| OverflowError.

(** [list.remove(x)]: deletes the first occurrence, [None] stands for the
    [ValueError] raised when [x] is absent. *)
Fixpoint remove (x : nat) (l : list nat) : option (list nat) :=
  match l with
  | [] => None
  | y :: t => if Nat.eqb x y then Some t
              else match remove x t with
                   | Some t' => Some (y :: t')
                   | None => None
                   end
  end.

(** [[l.remove(x) for x in xs]]: the removals happen left to right. *)
Fixpoint remove_all (xs : list nat) (l : list nat) : option (list nat) :=
  match xs with
  | [] => Some l
  | x :: xs' => match remove x l with
                | Some l' => remove_all xs' l'
                | None => None
                end
  end.

(** [l[0:stop]]; a negative [stop] counts from the end. *)
Definition slice_to {A : Type} (stop : Z) (l : list A) : list A :=
  if stop <? 0
  then take (Z.to_nat (Z.max 0 (Z.of_nat (length l) + stop))) l
  else take (Z.to_nat stop) l.

(** Python floats are IEEE 754 binary64. *)
Definition prec : Z := 53.
Definition emax : Z := 1024.

(** [float(n)] for an integer [n]. Pool sizes and budgets are far below
    [2^53], where the conversion is exact and the correctly rounded quotient
    of two integers, which is what [n / m] computes, is the IEEE quotient
    of their conversions. *)
Definition float_of_int (n : Z) : spec_float :=
  binary_normalize prec emax n 0 false.

Definition fdiv (x y : spec_float) : spec_float := SFdiv prec emax x y.
Definition fmul (x y : spec_float) : spec_float := SFmul prec emax x y.

(** [math.log(100)] is the double [0x1.26bb1bbb55516p+2]
    (4.605170185988092). *)
Definition log100 : spec_float :=
  S754_finite false 0x126bb1bbb55516 (-50).

(** [int(x)]: truncation toward zero; infinities and NaN raise. *)
Definition int_of_float (x : spec_float) : option Z :=
  match x with
  | S754_zero _ => Some 0
  | S754_finite s m e =>
      let a := if 0 <=? e then Z.pos m * 2 ^ e else Z.pos m / 2 ^ (- e) in
      Some (if s then - a else a)
  | _ => None
  end.

(** [round(x)]: to the nearest integer, ties to the even one. *)
Definition round_of_float (x : spec_float) : option Z :=
  match x with
  | S754_zero _ => Some 0
  | S754_finite s m e =>
      let a :=
        if 0 <=? e then Z.pos m * 2 ^ e
        else
          let d := 2 ^ (- e) in
          let q := Z.pos m / d in
          let rem := Z.pos m mod d in
          match 2 * rem ?= d with
          | Lt => q
          | Gt => q + 1
          | Eq => if Z.even q then q else q + 1
          end in
      Some (if s then - a else a)
  | _ => None
  end.

(** [int((n / budget) * math.log(100))] for [budget] other than zero. *)
Definition scaled_log100 (n budget : Z) : option Z :=
  int_of_float (fmul (fdiv (float_of_int n) (float_of_int budget)) log100).

End Py.

(* ===================================================================== *)
(** ** Tensor operations *)
(* ===================================================================== *)

Module Torch.

(** A vector, and a matrix as the list of its rows. Entries are exact
    integers: the rounding of float32 sums and products is not modelled. *)
Abbreviation vec := (list Z).
Abbreviation matrix := (list (list Z)).

Definition zeros (d : nat) : vec := replicate d 0.
Definition ones (n : nat) : vec := replicate n 1.

(** Elementwise sum of two tensors of the same width. *)
Definition vadd (a b : vec) : vec := zip_with Z.add a b.

Definition dot (a b : vec) : Z := foldr Z.add 0 (zip_with Z.mul a b).

(** [torch.matmul(grads, v)] for [grads : k x D] and [v : D x 1]. *)
Definition matmul (m : matrix) (v : vec) : list Z :=
  map (fun row => dot row v) m.

(** [t[idxs]] with a list of row numbers: a fresh tensor holding copies
    of the rows; [None] stands for the [IndexError] of a row out of range. *)
Definition index_rows (t : matrix) (idxs : list nat) : option matrix :=
  mapM (fun i => t !! i) idxs.

(** [m.sum(dim=0)] for [m : k x d]; the sum of no rows is [zeros d]. *)
Definition sum_dim0 (d : nat) (m : matrix) : vec :=
  fold_left vadd m (zeros d).

Fixpoint argmax_from (best : Z) (besti : nat) (i : nat) (l : list Z) : nat :=
  match l with
  | [] => besti
  | x :: t => if best <? x then argmax_from x i (S i) t
              else argmax_from best besti (S i) t
  end.

(** [torch.argmax(g).item()]: the position of the first maximal entry;
    an empty tensor raises. *)
Definition argmax (l : list Z) : option nat :=
  match l with
  | [] => None
  | x :: t => Some (argmax_from x 0 1 t)
  end.

Definition score (g : list Z) (i : nat) : Z := nth i g 0.

Fixpoint insert_desc (g : list Z) (i : nat) (l : list nat) : list nat :=
  match l with
  | [] => [i]
  | j :: t => if score g i <? score g j then j :: insert_desc g i t
              else i :: j :: t
  end.

(** The index tensor returned by [torch.sort(g, descending=True)]. Equal
    scores keep their positional order. *)
Definition argsort_desc (g : list Z) : list nat :=
  foldr (insert_desc g) [] (seq 0 (length g)).

End Torch.

(* ===================================================================== *)
(** ** numpy's random choice *)
(* ===================================================================== *)

Module Numpy.

(** [np.random.choice(a, size=k, replace=False)] checks the request and
    then keeps the first [k] entries of a random permutation of the
    positions of [a]. The permutation is what the generator supplies. *)
Definition choice (perm : list nat) (a : list nat) (size : Z)
  : option (list nat) :=
  if (size <? 0) || (Z.of_nat (length a) <? size) then None
  else mapM (fun p => a !! p) (take (Z.to_nat size) perm).

End Numpy.

(* ===================================================================== *)
(** ** The strategy object and its methods *)
(* ===================================================================== *)

Module Glister.
Import Py Torch.

(** What the name [grads_currX] is bound to: a view of row [i] of
    [self.grads_per_elem] (the result of [self.grads_per_elem[i].view(1, -1)],
    which shares the storage of the cache) or a tensor with storage of
    its own (the result of [....sum(dim=0).view(1, -1)]). *)
Inductive tensor_ref : Type :=
| RowView (i : nat)
| Owned (v : vec).

(** The collaborators of the selector, which [select] reaches through
    [self] and through numpy's global generator. *)
Record collaborators : Type := {
  (** The model snapshot handed to [select]. *)
  params : Type;
  (** Modelled from the spec: [compute_gradients] of the parent class
      [DataSelectionStrategy], whose source is not at hand. Section 4.1:
      it fills [self.grads_per_elem] with one gradient row per element of
      the pool, in index order, from the current parameters. *)
  compute_gradients : params -> matrix;
  (** Width [D] of a gradient vector. *)
  D : nat;
  (** The numeric content of [_update_grads_val]: the mean validation
      gradient of the first pass over the validation loader, and its
      one-step re-estimation from the cumulative gradient. Both go through
      the model and a softmax; the selection loop only uses the vector
      they leave in [self.grads_val_curr]. *)
  val_grads_first : params -> vec;
  val_grads_taylor : params -> vec -> vec;
  (** numpy's global generator: its state, and the permutation of
      [0 .. n-1] it hands out next. *)
  rng_state : Type;
  np_permutation : rng_state -> nat -> list nat * rng_state
}.

Section Strategy.

Variable C : collaborators.

Record state : Type := mkState {
  grads_per_elem : matrix;            (* self.grads_per_elem *)
  grads_val_curr : vec;               (* self.grads_val_curr *)
  numSelected : Z;                    (* self.numSelected *)
  greedySet : list nat;               (* local of select *)
  remainSet : list nat;               (* local of select *)
  grads_currX : option tensor_ref;    (* local of select; None: unbound *)
  rng : rng_state C                   (* np.random *)
}.

Definition set_grads_per_elem (g : matrix) (s : state) : state :=
  mkState g (grads_val_curr s) (numSelected s) (greedySet s)
          (remainSet s) (grads_currX s) (rng s).
Definition set_grads_val_curr (v : vec) (s : state) : state :=
  mkState (grads_per_elem s) v (numSelected s) (greedySet s)
          (remainSet s) (grads_currX s) (rng s).
Definition set_numSelected (n : Z) (s : state) : state :=
  mkState (grads_per_elem s) (grads_val_curr s) n (greedySet s)
          (remainSet s) (grads_currX s) (rng s).
Definition set_greedySet (l : list nat) (s : state) : state :=
  mkState (grads_per_elem s) (grads_val_curr s) (numSelected s) l
          (remainSet s) (grads_currX s) (rng s).
Definition set_remainSet (l : list nat) (s : state) : state :=
  mkState (grads_per_elem s) (grads_val_curr s) (numSelected s)
          (greedySet s) l (grads_currX s) (rng s).
Definition set_grads_currX (x : option tensor_ref) (s : state) : state :=
  mkState (grads_per_elem s) (grads_val_curr s) (numSelected s)
          (greedySet s) (remainSet s) x (rng s).
Definition set_rng (g : rng_state C) (s : state) : state :=
  mkState (grads_per_elem s) (grads_val_curr s) (numSelected s)
          (greedySet s) (remainSet s) (grads_currX s) g.

(** *** State and exception monad *)

Inductive res (A : Type) : Type :=
| Val (a : A) (s : state)      (* normal completion *)
| Exn (e : exn) (s : state)    (* an exception propagates *)
| Fuel (s : state).            (* the loop is still running *)
Arguments Val {A} a s.
Arguments Exn {A} e s.
Arguments Fuel {A} s.

Definition M (A : Type) : Type := state -> res A.

Definition ret {A : Type} (a : A) : M A := fun s => Val a s.
Definition bind {A B : Type} (m : M A) (k : A -> M B) : M B :=
  fun s => match m s with
           | Val a s' => k a s'
           | Exn e s' => Exn e s'
           | Fuel s' => Fuel s'
           end.
Definition raise {A : Type} (e : exn) : M A := fun s => Exn e s.
Definition get : M state := fun s => Val s s.
Definition modify (f : state -> state) : M unit := fun s => Val tt (f s).
Definition try {A : Type} (e : exn) (o : option A) : M A :=
  match o with
  | Some a => ret a
  | None => raise e
  end.

Notation "x <~ m ;; k" := (bind m (fun x => k))
  (at level 100, m at next level, right associativity).
Notation "m ;;; k" := (bind m (fun _ => k))
  (at level 100, right associativity).

(** [while cond: body], with a bound on the number of iterations. *)
Fixpoint while (fuel : nat) (cond : state -> bool) (body : M unit)
  : M unit :=
  fun s =>
    if cond s then
      match fuel with
      | O => Fuel s
      | S fuel' => bind body (fun _ => while fuel' cond body) s
      end
    else Val tt s.

(** *** Reading and writing through a tensor reference *)

Definition read_ref (x : tensor_ref) : M vec :=
  match x with
  | RowView i => s <~ get ;; try IndexError (grads_per_elem s !! i)
  | Owned v => ret v
  end.

(** [x += e] on a tensor: the addition is done in the storage [x]
    refers to. *)
Definition iadd_ref (x : tensor_ref) (e : vec) : M unit :=
  match x with
  | RowView i =>
      s <~ get ;;
      row <~ try IndexError (grads_per_elem s !! i) ;;
      modify (set_grads_per_elem (<[i := vadd row e]> (grads_per_elem s)))
  | Owned v => modify (set_grads_currX (Some (Owned (vadd v e))))
  end.

(** *** [_update_grads_val] *)

Definition _update_grads_val (model_params : params C)
    (grads_currX : option tensor_ref) (first_init : bool) : M unit :=
  if first_init then
    modify (set_grads_val_curr (val_grads_first C model_params))
  else
    match grads_currX with
    | Some x =>
        v <~ read_ref x ;;
        modify (set_grads_val_curr (val_grads_taylor C model_params v))
    | None => raise UnboundLocalError
    end.

(** *** [eval_taylor_modular] *)

(** The rows of [grads] and [self.grads_val_curr] have one width, as
    [torch.matmul] requires. *)
Definition eval_taylor_modular (grads : matrix) : M (list Z) :=
  s <~ get ;; ret (matmul grads (grads_val_curr s)).

(** *** [_update_gradients_subset] *)

Definition _update_gradients_subset (grads_X : tensor_ref)
    (element : nat + list nat) : M unit :=
  match element with
  | inr l =>
      s <~ get ;;
      rows <~ try IndexError (index_rows (grads_per_elem s) l) ;;
      iadd_ref grads_X (sum_dim0 (D C) rows)
  | inl i =>
      s <~ get ;;
      grads_e <~ try IndexError (grads_per_elem s !! i) ;;
      iadd_ref grads_X grads_e
  end.

(** *** The three loop bodies of [select] *)

Definition rgreedy_body (model_params : params C) (selection_size : Z)
  : M unit :=
  s <~ get ;;
  rem_grads <~ try IndexError
                 (index_rows (grads_per_elem s) (remainSet s)) ;;
  gains <~ eval_taylor_modular rem_grads ;;
  let indices := argsort_desc gains in
  selected_indices <~ try IndexError
                        (mapM (fun index => remainSet s !! index)
                              (slice_to selection_size indices)) ;;
  modify (set_greedySet (greedySet s ++ selected_indices)) ;;;
  rest <~ try ValueError (remove_all selected_indices (remainSet s)) ;;
  modify (set_remainSet rest) ;;;
  (if 0 <? numSelected s then
     x <~ try UnboundLocalError (grads_currX s) ;;
     _update_gradients_subset x (inr selected_indices)
   else
     rows <~ try IndexError
               (index_rows (grads_per_elem s) selected_indices) ;;
     modify (set_grads_currX (Some (Owned (sum_dim0 (D C) rows))))) ;;;
  s1 <~ get ;;
  _update_grads_val model_params (grads_currX s1) false ;;;
  modify (fun s2 => set_numSelected (numSelected s2 + selection_size) s2).

(** The tail shared by the Stochastic and the Naive body, from
    [greedySet.append(bestId)] on. *)
Definition commit_best (model_params : params C) (bestId : nat) : M unit :=
  modify (fun s => set_greedySet (greedySet s ++ [bestId]) s) ;;;
  s <~ get ;;
  rest <~ try ValueError (remove bestId (remainSet s)) ;;
  modify (set_remainSet rest) ;;;
  modify (fun s => set_numSelected (numSelected s + 1) s) ;;;
  s1 <~ get ;;
  (if 1 <? numSelected s1 then
     x <~ try UnboundLocalError (grads_currX s1) ;;
     _update_gradients_subset x (inl bestId)
   else
     _ <~ try IndexError (grads_per_elem s1 !! bestId) ;;
     modify (set_grads_currX (Some (RowView bestId)))) ;;;
  s2 <~ get ;;
  _update_grads_val model_params (grads_currX s2) false.

(** The first statement of that tail, [greedySet.append(bestId)], and
    the statements after it, from [remainSet.remove(bestId)] on: the state
    between the two is the one an iteration is in after the append and
    before the remove. *)
Definition append_best (bestId : nat) : M unit :=
  modify (fun s => set_greedySet (greedySet s ++ [bestId]) s).

Definition commit_rest (model_params : params C) (bestId : nat) : M unit :=
  s <~ get ;;
  rest <~ try ValueError (remove bestId (remainSet s)) ;;
  modify (set_remainSet rest) ;;;
  modify (fun s => set_numSelected (numSelected s + 1) s) ;;;
  s1 <~ get ;;
  (if 1 <? numSelected s1 then
     x <~ try UnboundLocalError (grads_currX s1) ;;
     _update_gradients_subset x (inl bestId)
   else
     _ <~ try IndexError (grads_per_elem s1 !! bestId) ;;
     modify (set_grads_currX (Some (RowView bestId)))) ;;;
  s2 <~ get ;;
  _update_grads_val model_params (grads_currX s2) false.

Definition stochastic_body (model_params : params C) (subset_size : Z)
  : M unit :=
  s <~ get ;;
  let '(perm, g) := np_permutation C (rng s) (length (remainSet s)) in
  subset_selected <~ try ValueError
                       (Numpy.choice perm (remainSet s) subset_size) ;;
  modify (set_rng g) ;;;
  rem_grads <~ try IndexError
                 (index_rows (grads_per_elem s) subset_selected) ;;
  gains <~ eval_taylor_modular rem_grads ;;
  k <~ try RuntimeError (argmax gains) ;;
  bestId <~ try IndexError (subset_selected !! k) ;;
  commit_best model_params bestId.

Definition naive_body (model_params : params C) : M unit :=
  s <~ get ;;
  rem_grads <~ try IndexError
                 (index_rows (grads_per_elem s) (remainSet s)) ;;
  gains <~ eval_taylor_modular rem_grads ;;
  k <~ try RuntimeError (argmax gains) ;;
  bestId <~ try IndexError (remainSet s !! k) ;;
  commit_best model_params bestId.

(** [int(budget / self.r)]. For [|budget| + |r| < 2^53] the float
    quotient truncates to the integer quotient. *)
Definition selection_size_of (budget r : Z) : option Z :=
  if r =? 0 then None else Some (Z.quot budget r).

(** [int((len(self.grads_per_elem) / budget) * math.log(100))]. *)
Definition subset_size_of (n budget : Z) : M Z :=
  if budget =? 0 then raise ZeroDivisionError
  else try OverflowError (scaled_log100 n budget).

(** [torch.ones(budget)]: a negative size raises. A size too large to
    allocate, which raises as well, is outside the model. *)
Definition torch_ones (budget : Z) : M vec :=
  if budget <? 0 then raise RuntimeError
  else ret (ones (Z.to_nat budget)).

Definition loop_cond (budget : Z) (s : state) : bool :=
  numSelected s <? budget.

(** *** [select] *)

Definition select (selection_type : string) (r : Z)
    (budget : Z) (model_params : params C) (fuel : nat)
  : M (list nat * vec) :=
  (* self.update_model(model_params); self.compute_gradients() *)
  modify (set_grads_per_elem (compute_gradients C model_params)) ;;;
  _update_grads_val model_params None true ;;;
  modify (set_numSelected 0) ;;;
  modify (set_greedySet []) ;;;
  (* remainSet = list(range(self.N_trn)): one index per cache row *)
  modify (fun s =>
            set_remainSet (seq 0 (length (grads_per_elem s))) s) ;;;
  modify (set_grads_currX None) ;;;
  (if String.eqb selection_type "RGreedy" then
     selection_size <~ try ZeroDivisionError
                         (selection_size_of budget r) ;;
     while fuel (loop_cond budget)
           (rgreedy_body model_params selection_size)
   else if String.eqb selection_type "Stochastic" then
     s <~ get ;;
     subset_size <~ subset_size_of
                      (Z.of_nat (length (grads_per_elem s))) budget ;;
     while fuel (loop_cond budget)
           (stochastic_body model_params subset_size)
   else if String.eqb selection_type "Naive" then
     while fuel (loop_cond budget) (naive_body model_params)
   else ret tt) ;;;
  s <~ get ;;
  weights <~ torch_ones budget ;;
  ret (greedySet s, weights).

End Strategy.

Arguments Val {C A} a s.
Arguments Exn {C A} e s.
Arguments Fuel {C A} s.
Arguments ret {C A} a _.
Arguments bind {C A B} m k _.
Arguments raise {C A} e _.
Arguments get {C} _.
Arguments modify {C} f _.
Arguments try {C A} e o _.
Arguments while {C} fuel cond body _.
Arguments grads_per_elem {C} s.
Arguments grads_val_curr {C} s.
Arguments numSelected {C} s.
Arguments greedySet {C} s.
Arguments remainSet {C} s.
Arguments grads_currX {C} s.
Arguments rng {C} s.
Arguments set_grads_per_elem {C} g s.
Arguments set_grads_val_curr {C} v s.
Arguments set_numSelected {C} n s.
Arguments set_greedySet {C} l s.
Arguments set_remainSet {C} l s.
Arguments set_grads_currX {C} x s.
Arguments set_rng {C} g s.
Arguments loop_cond {C} budget s.
Arguments append_best {C} bestId _.

End Glister.

(* ===================================================================== *)
(** ** Predicates used to state the properties *)
(* ===================================================================== *)

Module Spec.
Import Py Torch Glister.

(** What the caller of a method observes. *)
Inductive observable (A : Type) : Type :=
| Returns (a : A)
| Raises (e : exn)
| Running.
Arguments Returns {A} a.
Arguments Raises {A} e.
Arguments Running {A}.

Section Spec.

Variable C : collaborators.

Definition observe {A : Type} (x : res C A) : observable A :=
  match x with
  | Val a _ => Returns a
  | Exn e _ => Raises e
  | Fuel _ => Running
  end.

(** The state of the object and of the locals when the run stopped,
    returned, or was interrupted. *)
Definition state_of {A : Type} (x : res C A) : state C :=
  match x with
  | Val _ s => s
  | Exn _ s => s
  | Fuel s => s
  end.

(** The same outcome, with the state it carries transformed. *)
Definition res_map {A : Type} (f : state C -> state C) (x : res C A)
  : res C A :=
  match x with
  | Val a s => Val a (f s)
  | Exn e s => Exn e (f s)
  | Fuel s => Fuel (f s)
  end.

(** A reference that can be read and written in a cache of [n] rows. *)
Definition ref_ok (n : nat) (x : tensor_ref) : Prop :=
  match x with
  | RowView i => (i < n)%nat
  | Owned _ => True
  end.

(** The selected and the remaining indices partition [0 .. n-1]. *)
Definition partitioned (n : nat) (s : state C) : Prop :=
  greedySet s ++ remainSet s ≡ₚ seq 0 n.

(** The invariant of the three loops at an iteration boundary. *)
Definition loop_inv (n : nat) (s : state C) : Prop :=
  partitioned n s /\
  length (grads_per_elem s) = n /\
  (0 < numSelected s ->
   exists x, grads_currX s = Some x /\ ref_ok n x).

(** The state [select] has built when it reaches the strategy test:
    everything but the generator is overwritten. *)
Definition init_state (p : params C) (s0 : state C) : state C :=
  mkState C (compute_gradients C p) (val_grads_first C p) 0 []
          (seq 0 (length (compute_gradients C p))) None (rng s0).

(** The last three lines of [select]. *)
Definition finish (budget : Z) : M C (list nat * vec) :=
  bind get (fun s =>
  bind (torch_ones C budget) (fun weights =>
  ret (greedySet s, weights))).

(** The strategy test of [select] with the loop it guards. *)
Definition select_loop (selection_type : string) (r budget : Z)
    (p : params C) (fuel : nat) : M C unit :=
  if String.eqb selection_type "RGreedy" then
    bind (try ZeroDivisionError (selection_size_of budget r))
         (fun selection_size =>
            while fuel (loop_cond budget)
                  (rgreedy_body C p selection_size))
  else if String.eqb selection_type "Stochastic" then
    bind get (fun s =>
    bind (subset_size_of C (Z.of_nat (length (grads_per_elem s))) budget)
         (fun subset_size =>
            while fuel (loop_cond budget)
                  (stochastic_body C p subset_size)))
  else if String.eqb selection_type "Naive" then
    while fuel (loop_cond budget) (naive_body C p)
  else ret tt.

(** The sample size as the specification words it,
    [round((|pool| / budget) * ln(100))], to be compared with
    [subset_size_of]. *)
Definition subset_size_round (n budget : Z) : option Z :=
  round_of_float (fmul (fdiv (float_of_int n) (float_of_int budget)) log100).

(** The generator hands out permutations of the positions. *)
Definition rng_ok : Prop :=
  forall g n, fst (np_permutation C g n) ≡ₚ seq 0 n.

(** The score [eval_taylor_modular] gives to element [a] in state [s]. *)
Definition gain (s : state C) (a : nat) : Z :=
  dot (default [] (grads_per_elem s !! a)) (grads_val_curr s).

(** The sum of the cache rows of a list of elements, as the rows stand
    in state [s]. *)
Definition cache_sum (s : state C) (idxs : list nat) : vec :=
  sum_dim0 (D C) (map (fun i => default [] (grads_per_elem s !! i)) idxs).

(** The value the name [grads_currX] denotes in state [s]. *)
Definition currX_value (s : state C) : option vec :=
  match grads_currX s with
  | Some (RowView i) => grads_per_elem s !! i
  | Some (Owned v) => Some v
  | None => None
  end.

(** What [self.grads_val_curr] holds relative to [grads_currX]: the result
    of the first pass while [grads_currX] is unbound, the one-step
    re-estimate from the value of [grads_currX] afterwards. *)
Definition refreshed (p : params C) (s : state C) : Prop :=
  (grads_currX s = None /\ grads_val_curr s = val_grads_first C p) \/
  (exists v, currX_value s = Some v /\
             grads_val_curr s = val_grads_taylor C p v).

(** How far the cache of a Naive or Stochastic run can be from the cache
    [G0] that [compute_gradients] produced: not at all before the first
    pick; afterwards [grads_currX] views the row of the first pick [b1],
    and that row alone differs, holding the rows of the picks added up in
    the order they were made. *)
Definition confined (G0 : matrix) (s : state C) : Prop :=
  match greedySet s with
  | [] => grads_per_elem s = G0
  | b1 :: rest =>
      grads_currX s = Some (RowView b1) /\
      grads_per_elem s
      = <[b1 := fold_left vadd (map (fun i => default [] (G0 !! i)) rest)
                          (default [] (G0 !! b1))]> G0
  end.

End Spec.

Arguments confined {C} G0 s.
Arguments refreshed {C} p s.
Arguments init_state {C} p s0.
Arguments select_loop {C} selection_type r budget p fuel _.
Arguments finish {C} budget _.
Arguments observe {C A} x.
Arguments state_of {C A} x.
Arguments res_map {C A} f x.
Arguments partitioned {C} n s.
Arguments loop_inv {C} n s.
Arguments gain {C} s a.
Arguments cache_sum {C} s idxs.
Arguments currX_value {C} s.

End Spec.

(* ===================================================================== *)
(** ** Small concrete pools *)
(* ===================================================================== *)

Module Toy.
Import Py Torch Glister Spec.

(** Five elements with two-dimensional gradients. *)
Definition pool5 : matrix := [[1; 0]; [0; 1]; [2; 0]; [0; 3]; [1; 1]].

(** Three elements, the first and the last with the same gradient. *)
Definition ties : matrix := [[1; 0]; [0; 1]; [1; 0]].

(** [n] elements whose gradients are [[i; 1]]. *)
Definition ramp (n : nat) : matrix :=
  map (fun i => [Z.of_nat i; 1]) (seq 0 n).

(** Collaborators over a fixed cache: the validation gradient starts at
    [[1; 1]] and is re-estimated as [[3; 3]] minus the cumulative
    gradient; the generator hands out the positions in reverse order. *)
Definition over (cache : matrix) : collaborators :=
  {| params := unit;
     compute_gradients := fun _ => cache;
     D := 2;
     val_grads_first := fun _ => [1; 1];
     val_grads_taylor := fun _ v => zip_with Z.sub [3; 3] v;
     rng_state := nat;
     np_permutation := fun g n => (rev (seq 0 n), S g) |}.

(** The object before its first [select]. *)
Definition fresh (cache : matrix) : state (over cache) :=
  mkState (over cache) [] [] 0 [] [] None 0%nat.

End Toy.

(* ===================================================================== *)
(** ** Facts about the built-ins *)
(* ===================================================================== *)

Module PyFacts.
Import Py.

Lemma remove_Some (x : nat) (l : list nat) :
  x ∈ l -> exists l', remove x l = Some l' /\ l ≡ₚ x :: l'.
Proof.
  induction l as [|y t IH]; intros Hin.
  - by apply elem_of_nil in Hin.
  - simpl. destruct (Nat.eqb_spec x y) as [->|Hne].
    + by exists t.
    + apply elem_of_cons in Hin as [Heq|Hin]; [done|].
      destruct (IH Hin) as (t' & -> & Hp).
      exists (y :: t'). split; [done|].
      rewrite Hp. apply perm_swap.
Qed.

Lemma remove_all_Some (xs l : list nat) :
  NoDup xs -> (forall x, x ∈ xs -> x ∈ l) ->
  exists l', remove_all xs l = Some l' /\ l ≡ₚ xs ++ l'.
Proof.
  revert l. induction xs as [|x xs IH]; intros l Hnd Hsub.
  - by exists l.
  - apply NoDup_cons in Hnd as [Hx Hnd].
    destruct (remove_Some x l) as (l1 & Hr & Hp).
    { apply Hsub. by left. }
    destruct (IH l1 Hnd) as (l' & Hr' & Hp').
    { intros y Hy. assert (Hyl : y ∈ l) by (apply Hsub; by right).
      rewrite Hp in Hyl. apply elem_of_cons in Hyl as [->|]; done. }
    exists l'. simpl. rewrite Hr. split; [done|].
    rewrite Hp, Hp'. done.
Qed.

Lemma slice_to_take {A : Type} (stop : Z) (l : list A) :
  exists n, slice_to stop l = take n l /\ (0 <= stop -> n = Z.to_nat stop).
Proof.
  unfold slice_to. destruct (Z.ltb_spec stop 0).
  - eexists. split; [done|]. lia.
  - by eexists.
Qed.

End PyFacts.

Module TorchFacts.
Import Torch.

(** Looking up a list of positions that are all in range. *)
Lemma mapM_lookup_Some {A : Type} (l : list A) (ps : list nat) :
  Forall (fun p => (p < length l)%nat) ps ->
  exists xs, mapM (fun p => l !! p) ps = Some xs /\
             Forall2 (fun p x => l !! p = Some x) ps xs.
Proof.
  intros Hall.
  destruct (mapM (fun p => l !! p) ps) as [xs|] eqn:E.
  - exists xs. split; [done|]. by apply mapM_Some_1.
  - apply mapM_None_1 in E. apply Exists_exists in E as (p & Hp & Hnone).
    rewrite Forall_forall in Hall. apply Hall in Hp.
    apply lookup_lt_is_Some_2 in Hp as [x Hx]. congruence.
Qed.

Lemma lookups_elem_of {A : Type} (l : list A) ps xs :
  Forall2 (fun p x => l !! p = Some x) ps xs ->
  forall x, x ∈ xs -> x ∈ l.
Proof.
  induction 1 as [|p x ps xs Hpx _ IH]; intros y Hy.
  - by apply elem_of_nil in Hy.
  - apply elem_of_cons in Hy as [->|Hy]; [|by apply IH].
    apply list_elem_of_lookup. eauto.
Qed.

Lemma lookups_NoDup {A : Type} (l : list A) ps xs :
  NoDup l -> NoDup ps ->
  Forall2 (fun p x => l !! p = Some x) ps xs -> NoDup xs.
Proof.
  intros Hl Hps H. induction H as [|p x ps xs Hpx Hrest IH].
  - constructor.
  - apply NoDup_cons in Hps as [Hp Hps].
    apply NoDup_cons. split; [|by apply IH].
    intros Hx. apply list_elem_of_lookup in Hx as [k Hk].
    destruct (Forall2_lookup_r _ _ _ _ _ Hrest Hk) as (p' & Hp' & Hl').
    assert (p = p') by exact (NoDup_lookup l p p' x Hl Hpx Hl'). subst p'.
    apply Hp. apply list_elem_of_lookup. eauto.
Qed.

Lemma index_rows_Some (t : matrix) (idxs : list nat) :
  (forall i, i ∈ idxs -> (i < length t)%nat) ->
  exists rows, index_rows t idxs = Some rows /\
               Forall2 (fun i row => t !! i = Some row) idxs rows.
Proof.
  intros H. apply mapM_lookup_Some. by apply Forall_forall.
Qed.

Lemma length_matmul m v : length (matmul m v) = length m.
Proof. unfold matmul. by rewrite length_map. Qed.

Lemma index_rows_length (t : matrix) idxs rows :
  Forall2 (fun i row => t !! i = Some row) idxs rows ->
  length rows = length idxs.
Proof. intros H. symmetry. by eapply Forall2_length. Qed.

(** The score at position [j] of the gains of a row selection is the dot
    product of the cache row of the [j]-th selected element. *)
Lemma score_matmul (t : matrix) idxs rows v j a :
  Forall2 (fun i row => t !! i = Some row) idxs rows ->
  idxs !! j = Some a ->
  score (matmul rows v) j = dot (default [] (t !! a)) v.
Proof.
  intros H Hj.
  destruct (Forall2_lookup_l _ _ _ _ _ H Hj) as (row & Hrow & Ht).
  rewrite Ht. simpl. unfold score, matmul.
  rewrite nth_lookup.
  change (map (fun row0 => dot row0 v) rows)
    with ((fun row0 => dot row0 v) <$> rows).
  by rewrite list_lookup_fmap, Hrow.
Qed.

(** *** argmax *)

Lemma argmax_from_spec (L : list Z) :
  forall t pre best besti,
    L = pre ++ t ->
    (besti < length pre)%nat ->
    nth besti L 0 = best ->
    (forall j, (j < length pre)%nat -> nth j L 0 <= best) ->
    let k := argmax_from best besti (length pre) t in
    (k < length L)%nat /\ forall j, (j < length L)%nat -> nth j L 0 <= nth k L 0.
Proof.
  induction t as [|x t IH]; intros pre best besti HL Hb Hbest Hmax; simpl.
  - rewrite app_nil_r in HL. subst pre. split; [done|].
    intros j Hj. rewrite Hbest. by apply Hmax.
  - assert (HL' : L = (pre ++ [x]) ++ t) by (by rewrite <- app_assoc).
    assert (Hlen : length (pre ++ [x]) = S (length pre))
      by (rewrite length_app; simpl; lia).
    assert (Hx : nth (length pre) L 0 = x).
    { rewrite HL. rewrite app_nth2 by lia.
      by replace (length pre - length pre)%nat with 0%nat by lia. }
    destruct (Z.ltb_spec best x) as [Hlt|Hge].
    + specialize (IH (pre ++ [x]) x (length pre) HL').
      rewrite Hlen in IH. apply IH; [lia|done|].
      intros j Hj. destruct (decide (j = length pre)) as [->|Hne].
      * rewrite Hx. lia.
      * specialize (Hmax j). lia.
    + specialize (IH (pre ++ [x]) best besti HL').
      rewrite Hlen in IH. apply IH; [lia|done|].
      intros j Hj. destruct (decide (j = length pre)) as [->|Hne].
      * rewrite Hx. lia.
      * apply Hmax. lia.
Qed.

Lemma argmax_Some (l : list Z) :
  l <> [] ->
  exists k, argmax l = Some k /\ (k < length l)%nat /\
            forall j, (j < length l)%nat -> score l j <= score l k.
Proof.
  destruct l as [|x t]; [done|]. intros _.
  eexists. split; [done|].
  apply (argmax_from_spec (x :: t) t [x] x 0%nat); simpl; try done; try lia.
  intros j Hj. by replace j with 0%nat by lia.
Qed.

(** *** argsort *)

Definition desc (g : list Z) (i j : nat) : Prop := score g j <= score g i.

Lemma insert_desc_perm g i l : insert_desc g i l ≡ₚ i :: l.
Proof.
  induction l as [|j t IH]; simpl; [done|].
  destruct (score g i <? score g j); [|done].
  rewrite IH. apply perm_swap.
Qed.

Lemma insert_desc_sorted g i l :
  StronglySorted (desc g) l -> StronglySorted (desc g) (insert_desc g i l).
Proof.
  induction 1 as [|j t Hs IH Hall]; simpl.
  - repeat constructor.
  - destruct (Z.ltb_spec (score g i) (score g j)) as [Hlt|Hge].
    + constructor; [done|].
      rewrite insert_desc_perm. constructor; [unfold desc; lia|done].
    + constructor; [by constructor|].
      constructor; [done|].
      eapply Forall_impl; [exact Hall|]. unfold desc. intros; simpl in *; lia.
Qed.

Lemma argsort_desc_perm g : argsort_desc g ≡ₚ seq 0 (length g).
Proof.
  unfold argsort_desc. induction (seq 0 (length g)) as [|i l IH]; simpl.
  - done.
  - by rewrite insert_desc_perm, IH.
Qed.

Lemma argsort_desc_sorted g : StronglySorted (desc g) (argsort_desc g).
Proof.
  unfold argsort_desc. induction (seq 0 (length g)) as [|i l IH]; simpl.
  - constructor.
  - by apply insert_desc_sorted.
Qed.

Lemma argsort_desc_NoDup g : NoDup (argsort_desc g).
Proof. rewrite argsort_desc_perm. apply NoDup_seq. Qed.

Lemma argsort_desc_lt g p : p ∈ argsort_desc g -> (p < length g)%nat.
Proof. rewrite argsort_desc_perm, elem_of_seq. lia. Qed.

(** Sortedness carries over from positions to the elements found there. *)
Lemma lookups_sorted {A : Type} (l : list A) (f : nat -> Z) (h : A -> Z)
    ps xs :
  (forall p x, l !! p = Some x -> f p = h x) ->
  Forall2 (fun p x => l !! p = Some x) ps xs ->
  StronglySorted (fun i j => f j <= f i) ps ->
  StronglySorted (fun a b => h b <= h a) xs.
Proof.
  intros Hfh H. induction H as [|p x ps xs Hpx Hrest IH]; intros Hs.
  - constructor.
  - apply StronglySorted_cons in Hs as [Hall Hs].
    apply StronglySorted_cons. split; [|by apply IH].
    apply Forall_forall. intros y Hy.
    apply list_elem_of_lookup in Hy as [k Hk].
    destruct (Forall2_lookup_r _ _ _ _ _ Hrest Hk) as (q & Hq & Hlq).
    rewrite Forall_forall in Hall.
    assert (Hqin : q ∈ ps) by (apply list_elem_of_lookup; eauto).
    specialize (Hall q Hqin). simpl in Hall.
    by rewrite <- (Hfh _ _ Hpx), <- (Hfh _ _ Hlq).
Qed.

Lemma sorted_take_drop {A : Type} (R : relation A) (l : list A) m x y :
  StronglySorted R l -> x ∈ take m l -> y ∈ drop m l -> R x y.
Proof.
  intros Hs Hx Hy. rewrite <- (take_drop m l) in Hs.
  by eapply StronglySorted_app_1_elem_of.
Qed.

Lemma sorted_take {A : Type} (R : relation A) (l : list A) m :
  StronglySorted R l -> StronglySorted R (take m l).
Proof.
  intros Hs. rewrite <- (take_drop m l) in Hs.
  by eapply StronglySorted_app_1_l.
Qed.

(** *** Sums of rows of one width *)

Lemma vadd_assoc (a b c : vec) : vadd (vadd a b) c = vadd a (vadd b c).
Proof.
  unfold vadd. revert b c.
  induction a as [|x a IH]; intros [|y b] [|z c]; simpl; try done.
  by rewrite IH, Z.add_assoc.
Qed.

Lemma zeros_vadd (d : nat) (a : vec) :
  length a = d -> vadd (zeros d) a = a.
Proof.
  intros <-. unfold vadd, zeros.
  induction a as [|x a IH]; simpl; [done|]. by rewrite IH.
Qed.

Lemma length_vadd (d : nat) (a b : vec) :
  length a = d -> length b = d -> length (vadd a b) = d.
Proof. intros Ha Hb. unfold vadd. rewrite length_zip_with. lia. Qed.

Lemma length_sum_dim0 (d : nat) (rows : matrix) :
  Forall (fun row => length row = d) rows -> length (sum_dim0 d rows) = d.
Proof.
  unfold sum_dim0.
  assert (Hz : length (zeros d) = d) by apply length_replicate.
  revert Hz. generalize (zeros d).
  induction rows as [|row rows IH]; intros acc Hacc Hall; simpl; [done|].
  apply Forall_cons in Hall as [Hrow Hall].
  apply IH; [by apply length_vadd|done].
Qed.

(** Adding rows onto an accumulator is adding their sum. *)
Lemma fold_vadd_acc (d : nat) (rows : matrix) (acc : vec) :
  length acc = d -> Forall (fun row => length row = d) rows ->
  fold_left vadd rows acc = vadd acc (sum_dim0 d rows).
Proof.
  unfold sum_dim0. revert acc.
  induction rows as [|row rows IH]; intros acc Hacc Hall; simpl.
  - unfold vadd, zeros. subst d.
    induction acc as [|x acc IHa]; simpl; [done|].
    by rewrite <- IHa, Z.add_0_r.
  - apply Forall_cons in Hall as [Hrow Hall].
    rewrite (IH (vadd acc row)) by (by apply length_vadd || done).
    rewrite (IH (vadd (zeros d) row)); [|apply length_vadd; [|done]|done].
    + by rewrite zeros_vadd, vadd_assoc.
    + apply length_replicate.
Qed.

Lemma sum_dim0_app (d : nat) (l1 l2 : matrix) :
  Forall (fun row => length row = d) l1 ->
  Forall (fun row => length row = d) l2 ->
  sum_dim0 d (l1 ++ l2) = vadd (sum_dim0 d l1) (sum_dim0 d l2).
Proof.
  intros H1 H2. unfold sum_dim0 at 1. rewrite fold_left_app.
  fold (sum_dim0 d l1). apply fold_vadd_acc; [|done].
  by apply length_sum_dim0.
Qed.

(** The rows [t[idxs]] copies are the rows found in [t]. *)
Lemma index_rows_map (t : matrix) idxs rows :
  index_rows t idxs = Some rows ->
  rows = map (fun i => default [] (t !! i)) idxs.
Proof.
  intros H. apply mapM_Some_1 in H.
  induction H as [|i row idxs rows Hi _ IH]; simpl; [done|].
  by rewrite Hi, IH.
Qed.

End TorchFacts.

(* ===================================================================== *)
(** ** The loop bodies, one iteration at a time *)
(* ===================================================================== *)

Module BodyFacts.
Import Py Torch Glister Spec PyFacts TorchFacts.

Ltac monad_simpl :=
  unfold bind, get, modify, try, ret, raise; simpl.

(** Resolve the next option test in the goal from a hypothesis. *)
Ltac opt_step :=
  match goal with
  | H : _ = Some _ |- _ => rewrite H; simpl
  | H : _ = None |- _ => rewrite H; simpl
  end.

Ltac run := repeat (progress monad_simpl || opt_step).

Section Bodies.

Variable C : collaborators.
Implicit Types s : state C.

(** The tail of the Naive and Stochastic bodies moves [bestId] and
    updates the cumulative gradient through whatever [grads_currX]
    refers to. *)
Lemma commit_best_spec (p : params C) (bestId : nat) s rest :
  remove bestId (remainSet s) = Some rest ->
  (bestId < length (grads_per_elem s))%nat ->
  (0 < numSelected s ->
   exists x, grads_currX s = Some x /\
             ref_ok (length (grads_per_elem s)) x) ->
  exists s',
    commit_best C p bestId s = Val tt s' /\
    greedySet s' = greedySet s ++ [bestId] /\
    remainSet s' = rest /\
    numSelected s' = numSelected s + 1 /\
    rng s' = rng s /\
    length (grads_per_elem s') = length (grads_per_elem s) /\
    (exists x, grads_currX s' = Some x /\
               ref_ok (length (grads_per_elem s)) x) /\
    (numSelected s <= 0 ->
     grads_currX s' = Some (RowView bestId) /\
     grads_per_elem s' = grads_per_elem s) /\
    (forall i, 0 < numSelected s -> grads_currX s = Some (RowView i) ->
     exists row e,
       grads_per_elem s !! i = Some row /\
       grads_per_elem s !! bestId = Some e /\
       grads_currX s' = Some (RowView i) /\
       grads_per_elem s' = <[i := vadd row e]> (grads_per_elem s)).
Proof.
  intros Hrem Hbest Hbound.
  destruct (lookup_lt_is_Some_2 _ _ Hbest) as [e He].
  unfold commit_best. run.
  destruct (Z.ltb_spec 1 (numSelected s + 1)) as [Hgt|Hle].
  - destruct Hbound as (x & Hx & Hok); [lia|].
    run. destruct x as [i|v]; simpl in *.
    + destruct (lookup_lt_is_Some_2 _ _ Hok) as [row Hrow].
      run. rewrite list_lookup_insert_eq by done. run.
      eexists. split; [reflexivity|]. simpl.
      rewrite length_insert.
      repeat split; try done; try lia.
      * exists (RowView i). by split.
      * intros j _ [= <-]. exists row, e. by repeat split.
    + run.
      eexists. split; [reflexivity|]. simpl.
      repeat split; try done; try lia.
      by eexists.
  - run.
    eexists. split; [reflexivity|]. simpl.
    repeat split; try done; try lia.
    by exists (RowView bestId).
Qed.

(** [commit_best] keeps the loop invariant. *)
Lemma commit_best_inv (p : params C) (bestId : nat) s n :
  loop_inv n s -> bestId ∈ remainSet s ->
  exists s',
    commit_best C p bestId s = Val tt s' /\
    loop_inv n s' /\
    greedySet s' = greedySet s ++ [bestId] /\
    remainSet s ≡ₚ bestId :: remainSet s' /\
    numSelected s' = numSelected s + 1 /\
    rng s' = rng s.
Proof.
  intros (Hpart & Hlen & Hbound) Hin.
  destruct (remove_Some _ _ Hin) as (rest & Hrem & Hperm).
  assert (Hlt : (bestId < length (grads_per_elem s))%nat).
  { assert (Hb : bestId ∈ seq 0 n).
    { rewrite <- Hpart. apply elem_of_app. by right. }
    apply elem_of_seq in Hb. lia. }
  destruct (commit_best_spec p bestId s rest Hrem Hlt)
    as (s' & Hrun & Hg & Hr & Hn & Hrng & Hl & Hx & _).
  { by rewrite Hlen. }
  exists s'. repeat split; try done.
  - unfold partitioned. rewrite Hg, Hr, <- Hpart, Hperm.
    by rewrite <- app_assoc.
  - congruence.
  - intros _. by rewrite <- Hlen.
  - by rewrite Hr.
Qed.

Lemma inv_remain_lt s n a :
  loop_inv n s -> a ∈ remainSet s -> (a < length (grads_per_elem s))%nat.
Proof.
  intros (Hpart & Hlen & _) Hin.
  assert (Hb : a ∈ seq 0 n).
  { rewrite <- Hpart. apply elem_of_app. by right. }
  apply elem_of_seq in Hb. lia.
Qed.

Lemma inv_NoDup s n :
  loop_inv n s -> NoDup (greedySet s) /\ NoDup (remainSet s) /\
                  (forall a, a ∈ greedySet s -> a ∉ remainSet s).
Proof.
  intros (Hpart & _).
  assert (Hnd : NoDup (greedySet s ++ remainSet s))
    by (rewrite Hpart; apply NoDup_seq).
  apply NoDup_app in Hnd as (? & ? & ?). done.
Qed.

(** One iteration of the Naive loop: with an empty remaining set
    [argmax] raises before anything is modified; otherwise the best
    remaining element is committed. *)
Lemma naive_body_spec (p : params C) s n :
  loop_inv n s ->
  (remainSet s = [] -> naive_body C p s = Exn RuntimeError s) /\
  (remainSet s <> [] ->
   exists bestId,
     bestId ∈ remainSet s /\
     (forall a, a ∈ remainSet s -> gain s a <= gain s bestId) /\
     naive_body C p s = commit_best C p bestId s).
Proof.
  intros Hinv.
  destruct (index_rows_Some (grads_per_elem s) (remainSet s))
    as (rows & Hrows & Hall).
  { intros i Hi. by eapply inv_remain_lt. }
  pose proof (index_rows_length _ _ _ Hall) as Hlen.
  split.
  - intros Hnil. unfold naive_body. run.
    rewrite Hnil in Hall. apply Forall2_nil_inv_l in Hall. subst rows.
    done.
  - intros Hne.
    destruct (argmax_Some (matmul rows (grads_val_curr s)))
      as (k & Hk & Hklt & Hmax).
    { intros E. apply (f_equal length) in E.
      rewrite length_matmul, Hlen in E. by destruct (remainSet s). }
    rewrite length_matmul, Hlen in Hklt, Hmax.
    destruct (lookup_lt_is_Some_2 _ _ Hklt) as [bestId Hbest].
    exists bestId. split; [|split].
    + apply list_elem_of_lookup. eauto.
    + intros a Ha. apply list_elem_of_lookup in Ha as [j Hj].
      unfold gain.
      rewrite <- (score_matmul _ _ _ (grads_val_curr s) _ _ Hall Hj).
      rewrite <- (score_matmul _ _ _ (grads_val_curr s) _ _ Hall Hbest).
      apply Hmax. by eapply lookup_lt_Some.
    + unfold naive_body. run. done.
Qed.

(** One iteration of the Stochastic loop. [np.random.choice] refuses a
    sample larger than the remaining set; an empty sample makes
    [argmax] raise; otherwise the best element of the sample is
    committed. *)
Lemma stochastic_body_spec (p : params C) (k : Z) s n :
  rng_ok C -> loop_inv n s ->
  let perm := fst (np_permutation C (rng s) (length (remainSet s))) in
  let g := snd (np_permutation C (rng s) (length (remainSet s))) in
  (k < 0 \/ Z.of_nat (length (remainSet s)) < k ->
   stochastic_body C p k s = Exn ValueError s) /\
  (k = 0 -> stochastic_body C p k s = Exn RuntimeError (set_rng g s)) /\
  (1 <= k <= Z.of_nat (length (remainSet s)) ->
   exists sample bestId,
     Numpy.choice perm (remainSet s) k = Some sample /\
     length sample = Z.to_nat k /\
     NoDup sample /\
     (forall a, a ∈ sample -> a ∈ remainSet s) /\
     bestId ∈ sample /\
     (forall a, a ∈ sample -> gain s a <= gain s bestId) /\
     stochastic_body C p k s = commit_best C p bestId (set_rng g s)).
Proof.
  intros Hrng Hinv perm g.
  pose proof (Hrng (rng s) (length (remainSet s))) as Hperm.
  fold perm in Hperm.
  assert (Hpair : np_permutation C (rng s) (length (remainSet s))
                  = (perm, g)) by (subst perm g; by destruct np_permutation).
  unfold stochastic_body. monad_simpl. rewrite Hpair.
  split; [|split].
  - intros Hbad. unfold Numpy.choice.
    assert ((k <? 0) || (Z.of_nat (length (remainSet s)) <? k) = true)
      as ->; [|done].
    apply orb_true_iff. destruct Hbad; [left|right]; by apply Z.ltb_lt.
  - intros ->. unfold Numpy.choice. simpl.
    destruct (Z.ltb_spec (Z.of_nat (length (remainSet s))) 0); [lia|].
    simpl. done.
  - intros Hk.
    assert (Hgood : (k <? 0) || (Z.of_nat (length (remainSet s)) <? k)
                    = false).
    { apply orb_false_iff. split; apply Z.ltb_ge; lia. }
    destruct (mapM_lookup_Some (remainSet s) (take (Z.to_nat k) perm))
      as (sample & Hsample & Hall).
    { apply Forall_take. rewrite Hperm. apply Forall_forall.
      intros q Hq. apply elem_of_seq in Hq. lia. }
    assert (Hlen : length sample = Z.to_nat k).
    { rewrite <- (Forall2_length _ _ _ Hall), length_take, Hperm,
        length_seq. lia. }
    assert (Hsub : forall a, a ∈ sample -> a ∈ remainSet s)
      by (by eapply lookups_elem_of).
    assert (Hnd : NoDup sample).
    { eapply lookups_NoDup; [| |exact Hall].
      - by eapply inv_NoDup.
      - apply (sublist_NoDup _ perm); [|apply sublist_take].
        rewrite Hperm. apply NoDup_seq. }
    destruct (index_rows_Some (grads_per_elem s) sample)
      as (rows & Hrows & Hrall).
    { intros i Hi. eapply inv_remain_lt; eauto. }
    pose proof (index_rows_length _ _ _ Hrall) as Hrlen.
    destruct (argmax_Some (matmul rows (grads_val_curr s)))
      as (j & Hj & Hjlt & Hmax).
    { intros E. apply (f_equal length) in E.
      rewrite length_matmul, Hrlen, Hlen in E. simpl in E. lia. }
    rewrite length_matmul, Hrlen in Hjlt, Hmax.
    destruct (lookup_lt_is_Some_2 _ _ Hjlt) as [bestId Hbest].
    exists sample, bestId.
    assert (Hchoice : Numpy.choice perm (remainSet s) k = Some sample).
    { unfold Numpy.choice. by rewrite Hgood. }
    repeat split; try done.
    + apply list_elem_of_lookup. eauto.
    + intros a Ha. apply list_elem_of_lookup in Ha as [i Hi].
      unfold gain.
      rewrite <- (score_matmul _ _ _ (grads_val_curr s) _ _ Hrall Hi).
      rewrite <- (score_matmul _ _ _ (grads_val_curr s) _ _ Hrall Hbest).
      apply Hmax. by eapply lookup_lt_Some.
    + run. done.
Qed.

(** One iteration of the RGreedy loop never raises: it commits the
    first [selection_size] entries of the descending sort, or all of
    the remaining set when that is smaller. *)
Lemma rgreedy_body_spec (p : params C) (sel : Z) s n :
  loop_inv n s ->
  exists chunk s',
    rgreedy_body C p sel s = Val tt s' /\
    greedySet s' = greedySet s ++ chunk /\
    remainSet s ≡ₚ chunk ++ remainSet s' /\
    (0 <= sel ->
     length chunk = Nat.min (Z.to_nat sel) (length (remainSet s))) /\
    StronglySorted (fun a b => gain s b <= gain s a) chunk /\
    (forall a b, a ∈ chunk -> b ∈ remainSet s' ->
                 gain s b <= gain s a) /\
    numSelected s' = numSelected s + sel /\
    rng s' = rng s /\
    length (grads_per_elem s') = n /\
    (exists x, grads_currX s' = Some x /\ ref_ok n x) /\
    (numSelected s <= 0 \/ (exists v, grads_currX s = Some (Owned v)) ->
     grads_per_elem s' = grads_per_elem s /\
     exists v', grads_currX s' = Some (Owned v')) /\
    (exists rows,
        index_rows (grads_per_elem s) chunk = Some rows /\
        (numSelected s <= 0 ->
         grads_currX s' = Some (Owned (sum_dim0 (D C) rows))) /\
        (forall v, 0 < numSelected s -> grads_currX s = Some (Owned v) ->
         grads_currX s' = Some (Owned (vadd v (sum_dim0 (D C) rows))))).
Proof.
  intros Hinv.
  pose proof Hinv as (Hpart & Hlen & Hbound).
  destruct (inv_NoDup _ _ Hinv) as (_ & Hndr & _).
  destruct (index_rows_Some (grads_per_elem s) (remainSet s))
    as (rows & Hrows & Hall).
  { intros i Hi. by eapply inv_remain_lt. }
  pose proof (index_rows_length _ _ _ Hall) as Hrlen.
  set (gains := matmul rows (grads_val_curr s)).
  assert (Hglen : length gains = length (remainSet s))
    by (unfold gains; by rewrite length_matmul).
  destruct (slice_to_take sel (argsort_desc gains)) as (m & Hslice & Hm).
  destruct (mapM_lookup_Some (remainSet s) (take m (argsort_desc gains)))
    as (chunk & Hchunk & Hcall).
  { apply Forall_take, Forall_forall. intros q Hq.
    apply argsort_desc_lt in Hq. lia. }
  assert (Hcsub : forall a, a ∈ chunk -> a ∈ remainSet s)
    by (by eapply lookups_elem_of).
  assert (Hcnd : NoDup chunk).
  { eapply lookups_NoDup; [exact Hndr| |exact Hcall].
    apply (sublist_NoDup _ (argsort_desc gains));
      [apply argsort_desc_NoDup|apply sublist_take]. }
  destruct (remove_all_Some chunk (remainSet s) Hcnd Hcsub)
    as (rest & Hrest & Hperm).
  destruct (index_rows_Some (grads_per_elem s) chunk)
    as (crows & Hcrows & _).
  { intros i Hi. eapply inv_remain_lt; eauto. }
  assert (Hscore : forall q x, remainSet s !! q = Some x ->
                               score gains q = gain s x).
  { intros q x Hq. unfold gains, gain. by eapply score_matmul. }
  assert (Hsorted : StronglySorted (fun a b => gain s b <= gain s a) chunk).
  { eapply (lookups_sorted (remainSet s) (score gains)); [exact Hscore| |].
    - exact Hcall.
    - apply sorted_take. apply argsort_desc_sorted. }
  assert (Htop : forall a b, a ∈ chunk -> b ∈ rest -> gain s b <= gain s a).
  { intros a b Ha Hb.
    assert (Hnd2 : NoDup (chunk ++ rest)) by (by rewrite <- Hperm).
    apply NoDup_app in Hnd2 as (_ & Hdisj & _).
    assert (Hbr : b ∈ remainSet s).
    { rewrite Hperm. apply elem_of_app. by right. }
    apply list_elem_of_lookup in Hbr as [j Hj].
    apply list_elem_of_lookup in Ha as [ia Hia].
    destruct (Forall2_lookup_r _ _ _ _ _ Hcall Hia) as (i & Hi & Hli).
    assert (Hjin : j ∈ argsort_desc gains).
    { rewrite argsort_desc_perm, elem_of_seq.
      apply lookup_lt_Some in Hj. lia. }
    rewrite <- (take_drop m (argsort_desc gains)) in Hjin.
    apply elem_of_app in Hjin as [Hjt|Hjd].
    - exfalso. apply list_elem_of_lookup in Hjt as [jt Hjt].
      destruct (Forall2_lookup_l _ _ _ _ _ Hcall Hjt) as (b' & Hb' & Hlb).
      assert (b' = b) by congruence. subst b'.
      apply (Hdisj b); [|done]. apply list_elem_of_lookup. eauto.
    - rewrite <- (Hscore _ _ Hj), <- (Hscore _ _ Hli).
      eapply (sorted_take_drop (desc gains)); [apply argsort_desc_sorted| |].
      + apply list_elem_of_lookup. eauto.
      + exact Hjd. }
  assert (Hclen : 0 <= sel ->
            length chunk = Nat.min (Z.to_nat sel) (length (remainSet s))).
  { intros Hsel. rewrite <- (Forall2_length _ _ _ Hcall), length_take.
    rewrite (Permutation_length (argsort_desc_perm gains)), length_seq.
    rewrite Hglen, (Hm Hsel). done. }
  exists chunk.
  unfold rgreedy_body. run. fold gains. rewrite Hslice. run.
  destruct (Z.ltb_spec 0 (numSelected s)) as [Hpos|Hnpos].
  - destruct (Hbound Hpos) as (x & Hx & Hok).
    run. destruct x as [i|v]; simpl in Hok.
    + rewrite <- Hlen in Hok.
      destruct (lookup_lt_is_Some_2 _ _ Hok) as [row Hrow].
      run. rewrite list_lookup_insert_eq by done. run.
      eexists. split; [reflexivity|]. simpl.
      rewrite length_insert.
      do 8 (split; [done|]).
      split; [exists (RowView i); split; [done|]; simpl; by rewrite <- Hlen|].
      split.
      * intros [?|[v Hv]]; [lia|congruence].
      * exists crows. split; [done|]. split; [intros; lia|].
        intros v _ Hv. congruence.
    + run.
      eexists. split; [reflexivity|]. simpl.
      do 8 (split; [done|]).
      split; [by eexists|]. split; [intros _; split; [done|by eexists]|].
      exists crows. split; [done|]. split; [intros; lia|].
      intros v0 _ Hv. congruence.
  - run.
    eexists. split; [reflexivity|]. simpl.
    do 8 (split; [done|]).
    split; [by eexists|]. split; [intros _; split; [done|by eexists]|].
    exists crows. split; [done|]. split; [done|]. intros; lia.
Qed.

End Bodies.
End BodyFacts.

(* ===================================================================== *)
(** ** The loops *)
(* ===================================================================== *)

Module LoopFacts.
Import Py Torch Glister Spec PyFacts TorchFacts BodyFacts.

Section Loops.

Variable C : collaborators.
Implicit Types s : state C.
Implicit Types body : M C unit.

(** An invariant of the body holds in the state of every outcome. *)
Lemma while_invariant (I : state C -> Prop) cond body :
  (forall s, I s -> cond s = true -> I (state_of (body s))) ->
  forall fuel s, I s -> I (state_of (while fuel cond body s)).
Proof.
  intros Hbody. induction fuel as [|fuel IH]; intros s Hs; simpl.
  - destruct (cond s); done.
  - destruct (cond s) eqn:Hc; [|done].
    specialize (Hbody s Hs Hc). unfold bind.
    destruct (body s) as [[] s'|e s'|s']; simpl in *; try done.
    by apply IH.
Qed.

(** A loop body that keeps [I], extends the selected list and does not
    itself run out of fuel. *)
Definition steady (I : state C -> Prop) cond body : Prop :=
  forall s, I s -> cond s = true ->
            I (state_of (body s)) /\
            greedySet s `prefix_of` greedySet (state_of (body s)) /\
            forall s', body s <> Fuel s'.

Lemma steady_invariant I cond body :
  steady I cond body ->
  forall fuel s, I s -> I (state_of (while fuel cond body s)).
Proof.
  intros Hbody. apply while_invariant. intros s Hs Hc.
  by destruct (Hbody s Hs Hc).
Qed.

(** One more unit of fuel runs one more iteration. *)
Lemma while_S I cond body :
  steady I cond body ->
  forall fuel s, I s ->
    while (S fuel) cond body s =
    match while fuel cond body s with
    | Fuel s' => bind body (fun _ => while 0 cond body) s'
    | other => other
    end.
Proof.
  intros Hbody. induction fuel as [|fuel IH]; intros s Hs.
  - simpl. destruct (cond s); done.
  - change (while (S (S fuel)) cond body s)
      with (if cond s
            then bind body (fun _ => while (S fuel) cond body) s
            else Val tt s).
    change (while (S fuel) cond body s)
      with (if cond s
            then bind body (fun _ => while fuel cond body) s
            else Val tt s).
    destruct (cond s) eqn:Hc; [|done].
    destruct (Hbody s Hs Hc) as (HI & _ & Hnf). unfold bind in *.
    destruct (body s) as [[] s'|e s'|s']; try done.
    + by apply IH.
    + by destruct (Hnf s').
Qed.

(** Fuel runs out only at a loop head whose test holds. *)
Lemma while_Fuel I cond body :
  steady I cond body ->
  forall fuel s s', I s ->
    while fuel cond body s = Fuel s' -> cond s' = true /\ I s'.
Proof.
  intros Hbody. induction fuel as [|fuel IH]; intros s s' Hs; simpl.
  - destruct (cond s) eqn:Hc; [|done]. by intros [= <-].
  - destruct (cond s) eqn:Hc; [|done].
    destruct (Hbody s Hs Hc) as (HI & _ & Hnf). unfold bind.
    destruct (body s) as [[] s1|e s1|s1]; try done.
    + by apply IH.
    + by destruct (Hnf s1).
Qed.

(** A run with more fuel extends the selected list of a run with
    less. *)
Lemma while_prefix I cond body :
  steady I cond body ->
  forall fuel s, I s ->
    greedySet (state_of (while fuel cond body s))
      `prefix_of` greedySet (state_of (while (S fuel) cond body s)).
Proof.
  intros Hbody fuel s Hs. rewrite (while_S I) by done.
  destruct (while fuel cond body s) as [[] s'|e s'|s'] eqn:E;
    simpl; try done.
  destruct (while_Fuel I cond body Hbody _ _ _ Hs E) as [Hc HI].
  destruct (Hbody s' HI Hc) as (_ & Hpre & _). unfold bind.
  destruct (body s') as [[] s''|e s''|s'']; simpl in *; try done.
  by destruct (cond s'').
Qed.

(** [j] iterations whose test holds and whose body completes can be
    peeled off the front of the loop. *)
Lemma while_steps (P : nat -> state C -> Prop) cond body :
  (forall j s, P (S j) s ->
               cond s = true /\
               exists s', body s = Val tt s' /\ P j s') ->
  forall j s, P j s ->
    exists s', P 0%nat s' /\
               forall fuel, while (j + fuel) cond body s
                            = while fuel cond body s'.
Proof.
  intros Hstep. induction j as [|j IH]; intros s Hs.
  - by exists s.
  - destruct (Hstep j s Hs) as (Hc & s1 & Hb & Hs1).
    destruct (IH s1 Hs1) as (s' & Hs' & Hrun).
    exists s'. split; [done|]. intros fuel. simpl.
    rewrite Hc. unfold bind. rewrite Hb. apply Hrun.
Qed.


End Loops.
End LoopFacts.

(* ===================================================================== *)
(** ** [select], strategy by strategy *)
(* ===================================================================== *)

Module SelectFacts.
Import Py Torch Glister Spec PyFacts TorchFacts BodyFacts LoopFacts.

Section Select.

Variable C : collaborators.
Implicit Types s : state C.

Lemma loop_inv_set_rng n g s : loop_inv n s -> loop_inv n (set_rng g s).
Proof. done. Qed.

Lemma loop_inv_init (p : params C) s0 :
  loop_inv (length (compute_gradients C p)) (init_state p s0).
Proof.
  unfold loop_inv, partitioned. simpl.
  split; [reflexivity|]. split; [reflexivity|]. intros ?; lia.
Qed.

Lemma naive_steady (p : params C) n budget :
  steady C (loop_inv n) (loop_cond budget) (naive_body C p).
Proof.
  intros s Hinv _.
  destruct (naive_body_spec C p s n Hinv) as [Hnil Hcons].
  destruct (remainSet s) as [|a l] eqn:E.
  - rewrite Hnil by done. simpl. split; [done|split; [reflexivity|done]].
  - destruct Hcons as (bestId & Hin & _ & ->); [done|].
    rewrite <- E in Hin.
    destruct (commit_best_inv C p bestId s n Hinv Hin)
      as (s' & -> & Hinv' & Hg & _).
    simpl. split; [done|split; [|done]].
    rewrite Hg. by apply prefix_app_r.
Qed.

Lemma stochastic_steady (p : params C) k n budget :
  rng_ok C ->
  steady C (loop_inv n) (loop_cond budget) (stochastic_body C p k).
Proof.
  intros Hrng s Hinv _.
  destruct (stochastic_body_spec C p k s n Hrng Hinv)
    as (Hbad & Hzero & Hgood).
  destruct (Z_lt_le_dec k 0) as [Hneg|Hnn];
    [rewrite Hbad by (by left); simpl;
     split; [done|split; [reflexivity|done]]|].
  destruct (Z_lt_le_dec (Z.of_nat (length (remainSet s))) k) as [Hbig|Hfit];
    [rewrite Hbad by (by right); simpl;
     split; [done|split; [reflexivity|done]]|].
  destruct (Z.eq_dec k 0) as [->|Hnz];
    [rewrite Hzero by done; simpl;
     split; [done|split; [reflexivity|done]]|].
  destruct Hgood as (sample & bestId & _ & _ & _ & Hsub & Hin & _ & ->);
    [lia|].
  set (g := snd (np_permutation C (rng s) (length (remainSet s)))).
  destruct (commit_best_inv C p bestId (set_rng g s) n)
    as (s' & -> & Hinv' & Hg & _).
  { by apply loop_inv_set_rng. }
  { simpl. by apply Hsub. }
  simpl. split; [done|split; [|done]].
  rewrite Hg. simpl. by apply prefix_app_r.
Qed.

Lemma rgreedy_steady (p : params C) sel n budget :
  steady C (loop_inv n) (loop_cond budget) (rgreedy_body C p sel).
Proof.
  intros s Hinv _.
  destruct (rgreedy_body_spec C p sel s n Hinv)
    as (chunk & s' & -> & Hg & Hperm & _ & _ & _ & _ & _ & Hlen & Hx & _).
  simpl. split; [|split; [|done]].
  - split; [|split; [done|by intros _]].
    unfold partitioned. rewrite Hg, <- app_assoc, <- Hperm.
    by destruct Hinv.
  - rewrite Hg. by apply prefix_app_r.
Qed.

(** *** [select] as its prelude, one loop and the return *)

Lemma finish_eq budget s :
  finish budget s =
  if budget <? 0 then Exn RuntimeError s
  else Val (greedySet s, ones (Z.to_nat budget)) s.
Proof.
  unfold finish, torch_ones. monad_simpl. by destruct (budget <? 0).
Qed.

Lemma state_of_finish {A : Type} (m : M C A) budget s :
  state_of (bind m (fun _ => finish budget) s) = state_of (m s).
Proof.
  unfold bind. destruct (m s) as [a s'|e s'|s']; try done.
  rewrite finish_eq. by destruct (budget <? 0).
Qed.

Lemma select_Naive r budget (p : params C) fuel s0 :
  select C "Naive" r budget p fuel s0 =
  bind (while fuel (loop_cond budget) (naive_body C p))
       (fun _ => finish budget) (init_state p s0).
Proof. reflexivity. Qed.

Lemma select_Stochastic r budget (p : params C) fuel s0 :
  select C "Stochastic" r budget p fuel s0 =
  bind (bind (subset_size_of C
                (Z.of_nat (length (compute_gradients C p))) budget)
             (fun k => while fuel (loop_cond budget)
                             (stochastic_body C p k)))
       (fun _ => finish budget) (init_state p s0).
Proof. reflexivity. Qed.

Lemma select_RGreedy r budget (p : params C) fuel s0 :
  select C "RGreedy" r budget p fuel s0 =
  bind (bind (try ZeroDivisionError (selection_size_of budget r))
             (fun sel => while fuel (loop_cond budget)
                               (rgreedy_body C p sel)))
       (fun _ => finish budget) (init_state p s0).
Proof. reflexivity. Qed.

Lemma select_other ty r budget (p : params C) fuel s0 :
  ty <> "RGreedy"%string -> ty <> "Stochastic"%string ->
  ty <> "Naive"%string ->
  select C ty r budget p fuel s0 = finish budget (init_state p s0).
Proof.
  intros H1 H2 H3. unfold select.
  apply String.eqb_neq in H1, H2, H3. rewrite H1, H2, H3. reflexivity.
Qed.

Lemma select_eq ty r budget (p : params C) fuel s0 :
  select C ty r budget p fuel s0 =
  bind (select_loop ty r budget p fuel) (fun _ => finish budget)
       (init_state p s0).
Proof.
  unfold select, select_loop.
  destruct (String.eqb ty "RGreedy"); [reflexivity|].
  destruct (String.eqb ty "Stochastic"); [reflexivity|].
  destruct (String.eqb ty "Naive"); reflexivity.
Qed.

(** Whatever the strategy, the state in which the loop part of
    [select] stops satisfies the loop invariant, and more fuel only
    extends the selected list. *)
Lemma select_loop_inv ty r budget (p : params C) s n :
  rng_ok C -> loop_inv n s ->
  forall fuel,
    loop_inv n (state_of (select_loop ty r budget p fuel s)) /\
    greedySet (state_of (select_loop ty r budget p fuel s))
      `prefix_of`
    greedySet (state_of (select_loop ty r budget p (S fuel) s)).
Proof.
  intros Hrng Hinv fuel. unfold select_loop.
  destruct (String.eqb ty "RGreedy").
  { unfold bind, try. destruct (selection_size_of budget r) as [sel|];
      [|by split].
    unfold ret. split.
    - eapply steady_invariant; [apply rgreedy_steady|done].
    - eapply while_prefix; [apply rgreedy_steady|done]. }
  destruct (String.eqb ty "Stochastic").
  { unfold bind at 1 3 5. unfold get. unfold bind, subset_size_of.
    destruct (budget =? 0); [by split|].
    unfold try. destruct (scaled_log100 _ budget) as [k|]; [|by split].
    unfold ret. split.
    - eapply steady_invariant; [by apply stochastic_steady|done].
    - eapply while_prefix; [by apply stochastic_steady|done]. }
  destruct (String.eqb ty "Naive").
  { split.
    - eapply steady_invariant; [apply naive_steady|done].
    - eapply while_prefix; [apply naive_steady|done]. }
  by split.
Qed.

Lemma partitioned_length n s :
  partitioned n s ->
  (length (greedySet s) + length (remainSet s) = n)%nat.
Proof.
  intros Hpart. apply Permutation_length in Hpart.
  by rewrite length_app, length_seq in Hpart.
Qed.

(** Iterations that each commit one element can be run until the selected
    list has [target] entries, as long as the body completes below
    [target]. *)
Lemma counting_run (body : M C unit) n budget (target : nat) s :
  (forall s1, loop_inv n s1 ->
              (length (greedySet s1) < target)%nat ->
              numSelected s1 = Z.of_nat (length (greedySet s1)) ->
              exists s2, body s1 = Val tt s2 /\ loop_inv n s2 /\
                         numSelected s2 = numSelected s1 + 1 /\
                         length (greedySet s2) = S (length (greedySet s1))) ->
  Z.of_nat target <= budget ->
  loop_inv n s -> numSelected s = 0 -> greedySet s = [] ->
  exists s', loop_inv n s' /\
             numSelected s' = Z.of_nat target /\
             length (greedySet s') = target /\
             forall fuel, while (target + fuel) (loop_cond budget) body s
                          = while fuel (loop_cond budget) body s'.
Proof.
  intros Hbody Htarget Hinv Hnum Hnil.
  set (P := fun (j : nat) (s1 : state C) =>
              loop_inv n s1 /\
              numSelected s1 = Z.of_nat (length (greedySet s1)) /\
              (length (greedySet s1) + j = target)%nat).
  destruct (while_steps C P (loop_cond budget) body) with (j := target) (s := s)
    as (s' & (Hinv' & Hnum' & Hlen') & Hrun).
  - intros j s1 (Hi & Hn & Hl). split.
    + unfold loop_cond. apply Z.ltb_lt. lia.
    + destruct (Hbody s1 Hi) as (s2 & Hb & Hi2 & Hn2 & Hl2); [lia|done|].
      exists s2. split; [done|]. unfold P. split; [done|]. split; lia.
  - unfold P. rewrite Hnil, Hnum. simpl. split; [done|]. split; lia.
  - exists s'. split; [done|]. split; [lia|]. split; [lia|done].
Qed.

(** *** Naive *)

Lemma naive_run r budget (p : params C) s0 fuel :
  0 <= budget <= Z.of_nat (length (compute_gradients C p)) ->
  (Z.to_nat budget <= fuel)%nat ->
  exists s', select C "Naive" r budget p fuel s0
             = Val (greedySet s', ones (Z.to_nat budget)) s' /\
             Z.of_nat (length (greedySet s')) = budget /\
             numSelected s' = budget /\
             loop_inv (length (compute_gradients C p)) s'.
Proof.
  intros Hb Hfuel. set (n := length (compute_gradients C p)) in *.
  destruct (counting_run (naive_body C p) n budget (Z.to_nat budget)
              (init_state p s0)) as (s' & Hinv & Hnum & Hlen & Hrun);
    try done; try lia.
  - intros s1 Hi Hlt Hn.
    destruct (naive_body_spec C p s1 n Hi) as [_ Hcons].
    pose proof (partitioned_length n s1 (proj1 Hi)) as Hpl.
    destruct Hcons as (bestId & Hin & _ & ->).
    { intros E. rewrite E in Hpl. simpl in Hpl. lia. }
    destruct (commit_best_inv C p bestId s1 n Hi Hin)
      as (s2 & -> & Hi2 & Hg & _ & Hn2 & _).
    exists s2. repeat split; try done; try apply Hi2.
    rewrite Hg, length_app. simpl. lia.
  - apply loop_inv_init.
  - exists s'. rewrite select_Naive.
    replace fuel with (Z.to_nat budget + (fuel - Z.to_nat budget))%nat by lia.
    unfold bind at 1. rewrite Hrun.
    assert (Hstop : loop_cond budget s' = false)
      by (unfold loop_cond; apply Z.ltb_ge; lia).
    destruct (fuel - Z.to_nat budget)%nat; simpl; rewrite Hstop;
      rewrite finish_eq;
      (destruct (Z.ltb_spec budget 0); [lia|]);
      (split; [done|]; split; [lia|]; split; [lia|done]).
Qed.

(** *** Stochastic *)

Lemma subset_size_of_Some n budget k s :
  budget <> 0 -> scaled_log100 n budget = Some k ->
  subset_size_of C n budget s = Val k s.
Proof.
  intros Hb Hk. unfold subset_size_of.
  destruct (Z.eqb_spec budget 0); [done|]. by rewrite Hk.
Qed.

Lemma stochastic_step (p : params C) k n s1 :
  rng_ok C -> loop_inv n s1 ->
  1 <= k <= Z.of_nat (length (remainSet s1)) ->
  exists s2, stochastic_body C p k s1 = Val tt s2 /\ loop_inv n s2 /\
             numSelected s2 = numSelected s1 + 1 /\
             length (greedySet s2) = S (length (greedySet s1)).
Proof.
  intros Hrng Hi Hk.
  destruct (stochastic_body_spec C p k s1 n Hrng Hi) as (_ & _ & Hgood).
  destruct (Hgood Hk) as (sample & bestId & _ & _ & _ & Hsub & Hin & _ & ->).
  set (g := snd (np_permutation C (rng s1) (length (remainSet s1)))).
  destruct (commit_best_inv C p bestId (set_rng g s1) n)
    as (s2 & -> & Hi2 & Hg & _ & Hn2 & _).
  { by apply loop_inv_set_rng. }
  { simpl. by apply Hsub. }
  exists s2. split; [done|]. split; [done|]. split; [done|].
  rewrite Hg, length_app. simpl. lia.
Qed.

Lemma stochastic_run_ok r budget (p : params C) s0 fuel k :
  rng_ok C ->
  0 < budget <= Z.of_nat (length (compute_gradients C p)) ->
  scaled_log100 (Z.of_nat (length (compute_gradients C p))) budget = Some k ->
  1 <= k <= Z.of_nat (length (compute_gradients C p)) - budget + 1 ->
  (Z.to_nat budget <= fuel)%nat ->
  exists s', select C "Stochastic" r budget p fuel s0
             = Val (greedySet s', ones (Z.to_nat budget)) s' /\
             Z.of_nat (length (greedySet s')) = budget.
Proof.
  intros Hrng Hb Hsize Hk Hfuel.
  set (n := length (compute_gradients C p)) in *.
  destruct (counting_run (stochastic_body C p k) n budget (Z.to_nat budget)
              (init_state p s0)) as (s' & Hinv & Hnum & Hlen & Hrun);
    try done; try lia.
  - intros s1 Hi Hlt Hn. apply stochastic_step; [done|done|].
    pose proof (partitioned_length n s1 (proj1 Hi)). lia.
  - apply loop_inv_init.
  - exists s'. rewrite select_Stochastic. fold n.
    unfold bind at 1 2. rewrite (subset_size_of_Some _ _ k) by (done || lia).
    replace fuel with (Z.to_nat budget + (fuel - Z.to_nat budget))%nat by lia.
    rewrite Hrun.
    assert (Hstop : loop_cond budget s' = false)
      by (unfold loop_cond; apply Z.ltb_ge; lia).
    destruct (fuel - Z.to_nat budget)%nat; simpl; rewrite Hstop;
      rewrite finish_eq;
      (destruct (Z.ltb_spec budget 0); [lia|]);
      (split; [done|lia]).
Qed.

Lemma stochastic_run_fail r budget (p : params C) s0 fuel k :
  rng_ok C ->
  0 < budget <= Z.of_nat (length (compute_gradients C p)) ->
  scaled_log100 (Z.of_nat (length (compute_gradients C p))) budget = Some k ->
  Z.of_nat (length (compute_gradients C p)) - budget + 1 < k ->
  (Z.to_nat budget <= fuel)%nat ->
  exists s', select C "Stochastic" r budget p fuel s0 = Exn ValueError s' /\
             Z.of_nat (length (greedySet s'))
             = Z.max 0 (Z.of_nat (length (compute_gradients C p)) - k + 1).
Proof.
  intros Hrng Hb Hsize Hk Hfuel.
  set (n := length (compute_gradients C p)) in *.
  set (m := Z.to_nat (Z.of_nat n - k + 1)).
  destruct (counting_run (stochastic_body C p k) n budget m
              (init_state p s0)) as (s' & Hinv & Hnum & Hlen & Hrun);
    try done; try lia.
  - intros s1 Hi Hlt Hn. apply stochastic_step; [done|done|].
    pose proof (partitioned_length n s1 (proj1 Hi)). lia.
  - apply loop_inv_init.
  - exists s'. rewrite select_Stochastic. fold n.
    unfold bind at 1 2. rewrite (subset_size_of_Some _ _ k) by (done || lia).
    replace fuel with (m + S (fuel - m - 1))%nat by lia.
    rewrite Hrun.
    assert (Hgo : loop_cond budget s' = true)
      by (unfold loop_cond; apply Z.ltb_lt; lia).
    destruct (stochastic_body_spec C p k s' n Hrng Hinv) as (Hbad & _).
    pose proof (partitioned_length n s' (proj1 Hinv)) as Hpl.
    simpl. rewrite Hgo. unfold bind. rewrite Hbad by (right; lia).
    split; [done|lia].
Qed.

(** *** RGreedy *)

Lemma selection_size_floor budget r :
  0 <= budget -> 0 < r -> selection_size_of budget r = Some (budget / r).
Proof.
  intros Hb Hr. unfold selection_size_of.
  destruct (Z.eqb_spec r 0); [lia|].
  by rewrite Z.quot_div_nonneg by lia.
Qed.

(** The number of elements the RGreedy loop counts in [numSelected] when it
    stops: the least multiple of the chunk size that reaches the budget. *)
Lemma chunks_total budget sel :
  0 < budget -> 0 < sel ->
  sel * ((budget + sel - 1) / sel)
  = if budget mod sel =? 0 then budget else budget + (sel - budget mod sel).
Proof.
  intros Hb Hs.
  pose proof (Z.div_mod budget sel ltac:(lia)) as Hdm.
  pose proof (Z.mod_pos_bound budget sel Hs) as Hm.
  destruct (Z.eqb_spec (budget mod sel) 0) as [E|E].
  - assert ((budget + sel - 1) / sel = budget / sel) as ->; [|lia].
    symmetry. apply (Z.div_unique _ _ _ (sel - 1)); lia.
  - assert ((budget + sel - 1) / sel = budget / sel + 1) as ->; [|lia].
    symmetry. apply (Z.div_unique _ _ _ (budget mod sel - 1)); lia.
Qed.

Lemma chunks_bounds budget sel :
  0 < budget -> 0 < sel ->
  sel * ((budget + sel - 1) / sel - 1) < budget
  <= sel * ((budget + sel - 1) / sel).
Proof.
  intros Hb Hs. rewrite Z.mul_sub_distr_l, chunks_total by done.
  pose proof (Z.mod_pos_bound budget sel Hs) as Hm.
  destruct (Z.eqb_spec (budget mod sel) 0); lia.
Qed.

Lemma rgreedy_run r budget (p : params C) s0 fuel :
  0 < budget <= Z.of_nat (length (compute_gradients C p)) ->
  0 < r -> 1 <= budget / r ->
  (Z.to_nat budget <= fuel)%nat ->
  exists s', select C "RGreedy" r budget p fuel s0
             = Val (greedySet s', ones (Z.to_nat budget)) s' /\
             numSelected s'
             = budget / r * ((budget + budget / r - 1) / (budget / r)) /\
             Z.of_nat (length (greedySet s'))
             = Z.min (numSelected s')
                     (Z.of_nat (length (compute_gradients C p))) /\
             grads_per_elem s' = compute_gradients C p.
Proof.
  intros Hb Hr Hsel Hfuel.
  set (n := length (compute_gradients C p)) in *.
  set (sel := budget / r) in *.
  set (K := (budget + sel - 1) / sel).
  pose proof (chunks_bounds budget sel ltac:(lia) ltac:(lia)) as HK.
  fold K in HK.
  assert (HKpos : 0 < K) by nia.
  assert (HKle : K <= budget) by nia.
  set (P := fun (j : nat) (s : state C) =>
              loop_inv n s /\
              numSelected s + sel * Z.of_nat j = sel * K /\
              0 <= numSelected s /\
              Z.of_nat (length (greedySet s))
              = Z.min (numSelected s) (Z.of_nat n) /\
              grads_per_elem s = compute_gradients C p /\
              (numSelected s <= 0 \/
               exists v, grads_currX s = Some (Owned v))).
  destruct (while_steps C P (loop_cond budget) (rgreedy_body C p sel))
    with (j := Z.to_nat K) (s := init_state p s0)
    as (s' & (Hinv & Hnum & Hnn & Hlen & Hcache & _) & Hrun).
  - intros j s (Hi & Hn & Hn0 & Hl & Hc & Hx). split.
    + unfold loop_cond. apply Z.ltb_lt. nia.
    + destruct (rgreedy_body_spec C p sel s n Hi)
        as (chunk & s2 & Hb2 & Hg & Hperm & Hcl & _ & _ & Hn2 & _ & Hlen2
            & Hx2 & Hframe & _).
      destruct (Hframe Hx) as (Hc2 & Hv2).
      pose proof (partitioned_length n s (proj1 Hi)) as Hpl.
      specialize (Hcl ltac:(lia)).
      exists s2. split; [done|]. unfold P.
      split; [|split; [lia|split; [lia|split; [|split; [congruence|]]]]].
      * split; [|split; [done|by intros _]].
        unfold partitioned. rewrite Hg, <- app_assoc, <- Hperm.
        by destruct Hi.
      * rewrite Hg, length_app, Hn2. lia.
      * by right.
  - unfold P. simpl. split; [apply loop_inv_init|].
    split; [lia|]. split; [lia|]. split; [lia|]. split; [done|by left].
  - exists s'. rewrite select_RGreedy.
    unfold bind at 1 2.
    rewrite (selection_size_floor budget r) by lia. simpl. fold sel.
    replace fuel with (Z.to_nat K + (fuel - Z.to_nat K))%nat by lia.
    rewrite Hrun.
    assert (Hstop : loop_cond budget s' = false)
      by (unfold loop_cond; apply Z.ltb_ge; lia).
    destruct (fuel - Z.to_nat K)%nat; simpl; rewrite Hstop;
      rewrite finish_eq;
      (destruct (Z.ltb_spec budget 0); [lia|]);
      (split; [done|split; [fold K; lia|split; [done|done]]]).
Qed.


(** *** The Naive loop does not look at the generator *)

Lemma naive_body_set_rng (p : params C) g s :
  naive_body C p (set_rng g s) = res_map (set_rng g) (naive_body C p s).
Proof.
  unfold naive_body, commit_best, _update_grads_val, _update_gradients_subset,
    eval_taylor_modular, iadd_ref, read_ref.
  destruct s as [G gv ns gs rs cx rg].
  cbv [bind get modify try ret raise res_map
       set_rng set_greedySet set_remainSet set_numSelected set_grads_currX
       set_grads_per_elem set_grads_val_curr
       grads_per_elem grads_val_curr numSelected greedySet remainSet
       grads_currX rng].
  repeat (case_match; simplify_eq; try done).
Qed.

Lemma naive_loop_set_rng (p : params C) budget g fuel s :
  while fuel (loop_cond budget) (naive_body C p) (set_rng g s)
  = res_map (set_rng g) (while fuel (loop_cond budget) (naive_body C p) s).
Proof.
  revert s. induction fuel as [|fuel IH]; intros s; simpl.
  - change (loop_cond budget (set_rng g s)) with (loop_cond budget s).
    by destruct (loop_cond budget s).
  - change (loop_cond budget (set_rng g s)) with (loop_cond budget s).
    destruct (loop_cond budget s); [|done].
    unfold bind. rewrite naive_body_set_rng.
    destruct (naive_body C p s) as [[] s'|e s'|s']; simpl; done.
Qed.

Lemma observe_res_map {A : Type} f (x : res C A) :
  observe (res_map f x) = observe x.
Proof. by destruct x. Qed.

Lemma select_Naive_set_rng r1 r2 budget (p : params C) fuel s1 s2 :
  select C "Naive" r2 budget p fuel s2
  = res_map (set_rng (rng s2)) (select C "Naive" r1 budget p fuel s1).
Proof.
  rewrite !select_Naive.
  change (init_state p s2) with (set_rng (rng s2) (init_state p s1)).
  unfold bind. rewrite naive_loop_set_rng.
  destruct (while fuel (loop_cond budget) (naive_body C p) (init_state p s1))
    as [[] s'|e s'|s']; simpl; try done.
  rewrite !finish_eq. by destruct (budget <? 0).
Qed.

(** *** Naive with a budget above the pool size *)

Lemma naive_run_over r budget (p : params C) s0 fuel :
  Z.of_nat (length (compute_gradients C p)) < budget ->
  (length (compute_gradients C p) < fuel)%nat ->
  exists s', select C "Naive" r budget p fuel s0 = Exn RuntimeError s' /\
             numSelected s' = Z.of_nat (length (compute_gradients C p)) /\
             length (greedySet s') = length (compute_gradients C p) /\
             remainSet s' = [].
Proof.
  intros Hb Hfuel. set (n := length (compute_gradients C p)) in *.
  destruct (counting_run (naive_body C p) n budget n (init_state p s0))
    as (s' & Hinv & Hnum & Hlen & Hrun); try done; try lia.
  - intros s1 Hi Hlt Hn.
    destruct (naive_body_spec C p s1 n Hi) as [_ Hcons].
    pose proof (partitioned_length n s1 (proj1 Hi)) as Hpl.
    destruct Hcons as (bestId & Hin & _ & ->).
    { intros E. rewrite E in Hpl. simpl in Hpl. lia. }
    destruct (commit_best_inv C p bestId s1 n Hi Hin)
      as (s2 & -> & Hi2 & Hg & _ & Hn2 & _).
    exists s2. repeat split; try done; try apply Hi2.
    rewrite Hg, length_app. simpl. lia.
  - apply loop_inv_init.
  - pose proof (partitioned_length n s' (proj1 Hinv)) as Hpl.
    assert (Hnil : remainSet s' = [])
      by (destruct (remainSet s'); [done|simpl in Hpl; lia]).
    destruct (naive_body_spec C p s' n Hinv) as [Hraise _].
    exists s'. rewrite select_Naive.
    replace fuel with (n + S (fuel - n - 1))%nat by lia.
    unfold bind at 1. rewrite Hrun. simpl.
    assert (Hgo : loop_cond budget s' = true)
      by (unfold loop_cond; apply Z.ltb_lt; lia).
    rewrite Hgo. unfold bind. rewrite Hraise by done. done.
Qed.

(** *** The first two picks of the Naive loop and the cache *)

Lemma while_step_Val cond (body : M C unit) fuel s s' :
  cond s = true -> body s = Val tt s' ->
  while (S fuel) cond body s = while fuel cond body s'.
Proof. intros Hc Hb. simpl. rewrite Hc. unfold bind. by rewrite Hb. Qed.

Lemma while_stop cond (body : M C unit) fuel s :
  cond s = false -> while fuel cond body s = Val tt s.
Proof. intros Hc. destruct fuel; simpl; by rewrite Hc. Qed.

Lemma naive_two_picks r (p : params C) s0 fuel :
  (2 <= length (compute_gradients C p))%nat -> (2 <= fuel)%nat ->
  exists b1 b2 row1 row2 s',
    select C "Naive" r 2 p fuel s0 = Val ([b1; b2], [1; 1]) s' /\
    b1 <> b2 /\
    compute_gradients C p !! b1 = Some row1 /\
    compute_gradients C p !! b2 = Some row2 /\
    greedySet s' = [b1; b2] /\
    grads_currX s' = Some (RowView b1) /\
    grads_per_elem s' = <[b1 := vadd row1 row2]> (compute_gradients C p).
Proof.
  intros HN Hfuel. set (n := length (compute_gradients C p)) in *.
  set (sa := init_state p s0).
  pose proof (loop_inv_init p s0) as Hia. fold n sa in Hia.
  (* first iteration *)
  destruct (naive_body_spec C p sa n Hia) as [_ Hcons].
  destruct Hcons as (b1 & Hin1 & _ & Hbody1).
  { subst sa. simpl. fold n. destruct n as [|[|n']]; [lia|lia|done]. }
  destruct (remove_Some _ _ Hin1) as (rest1 & Hrem1 & _).
  pose proof (inv_remain_lt C sa n b1 Hia Hin1) as Hlt1.
  destruct (commit_best_spec C p b1 sa rest1 Hrem1 Hlt1)
    as (sb & Hrun1 & Hg1 & Hr1 & Hn1 & _ & Hl1 & _ & Hfirst & _).
  { simpl. lia. }
  destruct Hfirst as [Hx1 Hc1]; [simpl; lia|].
  destruct (commit_best_inv C p b1 sa n Hia Hin1) as (sb' & Hrun1' & Hib & _).
  assert (sb' = sb) by congruence. subst sb'.
  (* second iteration *)
  pose proof (partitioned_length n sb (proj1 Hib)) as Hplb.
  rewrite Hg1 in Hplb. simpl in Hplb.
  destruct (naive_body_spec C p sb n Hib) as [_ Hcons].
  destruct Hcons as (b2 & Hin2 & _ & Hbody2).
  { intros E. rewrite E in Hplb. simpl in Hplb. lia. }
  destruct (remove_Some _ _ Hin2) as (rest2 & Hrem2 & _).
  pose proof (inv_remain_lt C sb n b2 Hib Hin2) as Hlt2.
  destruct (commit_best_spec C p b2 sb rest2 Hrem2 Hlt2)
    as (sc & Hrun2 & Hg2 & Hr2 & Hn2 & _ & Hl2 & _ & _ & Hsecond).
  { intros _. exists (RowView b1). split; [done|]. simpl. lia. }
  destruct (Hsecond b1) as (row1 & row2 & Hrow1 & Hrow2 & Hx2 & Hc2);
    [simpl in *; lia|done|].
  rewrite Hc1 in Hrow1, Hrow2, Hc2. simpl in Hrow1, Hrow2, Hc2.
  assert (Hne : b1 <> b2).
  { intros <-. destruct (inv_NoDup C sb n Hib) as (_ & _ & Hdisj).
    apply (Hdisj b1); [|done]. rewrite Hg1. simpl. by left. }
  exists b1, b2, row1, row2, sc.
  split; [|by rewrite Hg2, Hg1].
  rewrite select_Naive. unfold bind.
  destruct fuel as [|[|fuel]]; [lia|lia|].
  rewrite (while_step_Val _ _ _ sa sb); [|done|congruence].
  rewrite (while_step_Val _ _ _ sb sc);
    [|unfold loop_cond; apply Z.ltb_lt; simpl in *; lia|congruence].
  rewrite while_stop
    by (unfold loop_cond; apply Z.ltb_ge; simpl in *; lia).
  rewrite finish_eq. simpl. by rewrite Hg2, Hg1.
Qed.

(** *** RGreedy keeps its accumulator apart from the cache *)

Lemma rows_of_width (G : matrix) (d : nat) (idxs : list nat) :
  Forall (fun row => length row = d) G ->
  (forall i, i ∈ idxs -> (i < length G)%nat) ->
  Forall (fun row => length row = d)
         (map (fun i => default [] (G !! i)) idxs).
Proof.
  intros HG Hidx. apply Forall_forall. intros row Hrow.
  apply list_elem_of_In, in_map_iff in Hrow as (i & <- & Hi).
  apply list_elem_of_In in Hi.
  destruct (lookup_lt_is_Some_2 _ _ (Hidx i Hi)) as [x Hx].
  rewrite Hx. simpl. rewrite Forall_forall in HG. apply HG.
  apply list_elem_of_lookup. eauto.
Qed.

Lemma rgreedy_accumulates r budget (p : params C) s0 fuel :
  Forall (fun row => length row = D C) (compute_gradients C p) ->
  0 < r -> 1 <= budget / r -> 0 <= budget ->
  grads_per_elem (state_of (select C "RGreedy" r budget p fuel s0))
  = compute_gradients C p /\
  (0 < numSelected (state_of (select C "RGreedy" r budget p fuel s0)) ->
   currX_value (state_of (select C "RGreedy" r budget p fuel s0))
   = Some (cache_sum (state_of (select C "RGreedy" r budget p fuel s0))
                     (greedySet
                        (state_of (select C "RGreedy" r budget p fuel s0))))).
Proof.
  intros HG Hr Hsel Hb.
  set (n := length (compute_gradients C p)).
  set (sel := budget / r) in *.
  set (I := fun (s : state C) =>
              loop_inv n s /\
              grads_per_elem s = compute_gradients C p /\
              0 <= numSelected s /\
              (numSelected s <= 0 -> greedySet s = []) /\
              (0 < numSelected s ->
               grads_currX s = Some (Owned (cache_sum s (greedySet s))))).
  assert (Hloop : I (state_of (while fuel (loop_cond budget)
                                     (rgreedy_body C p sel)
                                     (init_state p s0)))).
  { apply while_invariant.
    - intros s (Hi & Hc & Hn0 & Hnil & Hsum) _.
      destruct (rgreedy_body_spec C p sel s n Hi)
        as (chunk & s' & -> & Hg & Hperm & _ & _ & _ & Hn & _ & Hlen & Hx
            & Hframe & rows & Hrows & Hfirst & Hlater).
      simpl.
      assert (Hc' : grads_per_elem s' = grads_per_elem s).
      { apply Hframe. destruct (Z_le_gt_dec (numSelected s) 0); [by left|].
        right. eexists. apply Hsum. lia. }
      pose proof (index_rows_map _ _ _ Hrows) as Hmap.
      assert (Hgs : forall i, i ∈ greedySet s ->
                              (i < length (grads_per_elem s))%nat).
      { intros i Hin. destruct Hi as (Hpart & Hl & _).
        assert (Hb' : i ∈ seq 0 n)
          by (rewrite <- Hpart; apply elem_of_app; by left).
        apply elem_of_seq in Hb'. lia. }
      assert (Hcs : forall i, i ∈ chunk ->
                              (i < length (grads_per_elem s))%nat).
      { intros i Hin. eapply inv_remain_lt; [exact Hi|].
        rewrite Hperm. apply elem_of_app. by left. }
      split; [|split; [congruence|split; [lia|split; [intros; lia|]]]].
      + split; [|split; [done|by intros _]].
        unfold partitioned. rewrite Hg, <- app_assoc, <- Hperm.
        by destruct Hi.
      + intros _. unfold cache_sum. rewrite Hc', Hg, map_app.
        rewrite sum_dim0_app
          by (apply rows_of_width; [by rewrite Hc|done]).
        rewrite <- Hmap.
        destruct (Z_le_gt_dec (numSelected s) 0) as [Hz|Hp].
        * rewrite (Hfirst Hz), (Hnil Hz). simpl.
          change (sum_dim0 (D C) []) with (zeros (D C)).
          rewrite zeros_vadd; [done|].
          apply length_sum_dim0. rewrite Hmap.
          apply rows_of_width; [by rewrite Hc|done].
        * rewrite (Hlater _ ltac:(lia) (Hsum ltac:(lia))). done.
    - split; [apply loop_inv_init|]. simpl.
      split; [done|]. split; [lia|]. split; [done|intros; lia]. }
  assert (Hstate : state_of (select C "RGreedy" r budget p fuel s0)
                   = state_of (while fuel (loop_cond budget)
                                     (rgreedy_body C p sel)
                                     (init_state p s0))).
  { rewrite select_RGreedy, state_of_finish. unfold bind.
    by rewrite (selection_size_floor budget r) by lia. }
  rewrite Hstate. destruct Hloop as (_ & Hc & _ & _ & Hsum).
  split; [done|]. intros Hpos. unfold currX_value. by rewrite (Hsum Hpos).
Qed.

End Select.
End SelectFacts.

(* ===================================================================== *)
(** ** Properties of [select] *)
(* ===================================================================== *)

Module Properties.
Import Py Torch Glister Spec PyFacts TorchFacts BodyFacts LoopFacts.
Import SelectFacts.

Lemma toy_rng_ok (cache : matrix) : rng_ok (Toy.over cache).
Proof. intros g n. simpl. symmetry. apply Permutation_rev. Qed.

Lemma observe_Returns {C : collaborators} {A : Type} (x : res C A) a :
  observe x = Returns a -> x = Val a (state_of x).
Proof. destruct x; simpl; congruence. Qed.

Lemma partitioned_split {C : collaborators} (n : nat) (s : state C) :
  partitioned n s ->
  (forall i, i ∈ greedySet s -> i ∉ remainSet s) /\
  (forall i, (i < n)%nat <-> i ∈ greedySet s \/ i ∈ remainSet s) /\
  NoDup (greedySet s) /\ NoDup (remainSet s).
Proof.
  intros Hpart.
  assert (Hnd : NoDup (greedySet s ++ remainSet s))
    by (rewrite Hpart; apply NoDup_seq).
  apply NoDup_app in Hnd as (Hg & Hdisj & Hr).
  repeat split; try done.
  - intros Hi. apply elem_of_app. rewrite Hpart. apply elem_of_seq. lia.
  - intros Hi. apply elem_of_app in Hi. rewrite Hpart in Hi.
    apply elem_of_seq in Hi. lia.
Qed.

Lemma commit_best_cut (C : collaborators) (p : params C) (bestId : nat) :
  commit_best C p bestId
  = bind (append_best bestId) (fun _ => commit_rest C p bestId).
Proof. reflexivity. Qed.

(** C5, counterexample. Inside an iteration the two lists overlap. The
    first Naive iteration on a pool of five starts from the state the
    prelude of [select] leaves and picks element 3; in the state after
    [greedySet.append(bestId)] and before [remainSet.remove(bestId)], from
    which the rest of the iteration runs, 3 is in both lists. *)
Lemma partition_mid_iteration_counterexample :
  exists s1,
    select (Toy.over Toy.pool5) "Naive" 15 2 tt 0 (Toy.fresh Toy.pool5)
    = Fuel (init_state (C := Toy.over Toy.pool5) tt (Toy.fresh Toy.pool5)) /\
    naive_body (Toy.over Toy.pool5) tt
      (init_state (C := Toy.over Toy.pool5) tt (Toy.fresh Toy.pool5))
    = commit_best (Toy.over Toy.pool5) tt 3
        (init_state (C := Toy.over Toy.pool5) tt (Toy.fresh Toy.pool5)) /\
    append_best 3%nat
      (init_state (C := Toy.over Toy.pool5) tt (Toy.fresh Toy.pool5))
    = Val tt s1 /\
    commit_best (Toy.over Toy.pool5) tt 3
      (init_state (C := Toy.over Toy.pool5) tt (Toy.fresh Toy.pool5))
    = commit_rest (Toy.over Toy.pool5) tt 3 s1 /\
    greedySet s1 = [3]%nat /\
    remainSet s1 = [0; 1; 2; 3; 4]%nat /\
    3%nat ∈ greedySet s1 /\ 3%nat ∈ remainSet s1.
Proof.
  eexists. split; [vm_compute; reflexivity|].
  split; [vm_compute; reflexivity|].
  split; [reflexivity|].
  split; [reflexivity|]. simpl.
  split; [reflexivity|]. split; [reflexivity|].
  split; [by left|]. do 3 right. by left.
Qed.

(** C5, amended. In the state of every outcome of [select] (the loop head
    reached when the fuel runs out, the state at the return, the state in
    which an exception left the call) and for every strategy: no index is
    both selected and remaining, the indices below the pool size are
    exactly the selected and the remaining ones, the selected list holds
    no index twice, the list returned is that selected list, and one more
    iteration only appends to it. *)
Theorem select_partition (C : collaborators) (ty : string) (r budget : Z)
    (p : params C) (s0 : state C) (fuel : nat) :
  rng_ok C ->
  let N := length (compute_gradients C p) in
  let out := select C ty r budget p fuel s0 in
  let s := state_of out in
  (forall i, i ∈ greedySet s -> i ∉ remainSet s) /\
  (forall i, (i < N)%nat <-> i ∈ greedySet s \/ i ∈ remainSet s) /\
  NoDup (greedySet s) /\
  (forall idxs w, observe out = Returns (idxs, w) ->
                  idxs = greedySet s /\ NoDup idxs) /\
  greedySet s `prefix_of`
    greedySet (state_of (select C ty r budget p (S fuel) s0)).
Proof.
  intros Hrng N out s. subst out s.
  rewrite !select_eq, !state_of_finish.
  destruct (select_loop_inv C ty r budget p (init_state p s0) N Hrng
              (loop_inv_init C p s0) fuel) as [Hinv Hpre].
  destruct Hinv as (Hpart & _).
  destruct (partitioned_split N _ Hpart) as (Hdisj & Hcover & Hnd & _).
  split; [exact Hdisj|]. split; [exact Hcover|]. split; [exact Hnd|].
  split; [|exact Hpre].
  intros idxs w Hobs. apply observe_Returns in Hobs.
  rewrite state_of_finish in Hobs. unfold bind in Hobs.
  destruct (select_loop ty r budget p fuel (init_state p s0))
    as [[] s'|e s'|s']; try done.
  rewrite finish_eq in Hobs. destruct (budget <? 0); [done|].
  simpl in *. assert (idxs = greedySet s') as -> by congruence. done.
Qed.

Lemma select_partition_witness :
  greedySet (state_of (select (Toy.over (Toy.ramp 16)) "Stochastic" 15 8 tt
                              3 (Toy.fresh (Toy.ramp 16))))
  = [15; 6; 5]%nat /\
  NoDup (greedySet
           (state_of (select (Toy.over (Toy.ramp 16)) "Stochastic" 15 8 tt
                             3 (Toy.fresh (Toy.ramp 16))))).
Proof.
  split; [vm_compute; reflexivity|].
  exact (proj1 (proj2 (proj2
           (select_partition (Toy.over (Toy.ramp 16)) "Stochastic" 15 8 tt
              (Toy.fresh (Toy.ramp 16)) 3
              (toy_rng_ok (Toy.ramp 16)))))).
Defined.

(** C1. For a valid budget the Naive strategy returns exactly [budget]
    indices. The Stochastic strategy does so when its sample size [k] fits
    the remaining set in every iteration ([1 <= k <= N - budget + 1]); for
    the other valid budgets [np.random.choice] raises [ValueError] once the
    remaining set is smaller than the sample, and [select] returns
    nothing. *)
Theorem budget_conformance (C : collaborators) (r budget : Z)
    (p : params C) (s0 : state C) (fuel : nat) :
  rng_ok C ->
  0 < budget <= Z.of_nat (length (compute_gradients C p)) ->
  (Z.to_nat budget <= fuel)%nat ->
  (exists idxs,
      observe (select C "Naive" r budget p fuel s0)
      = Returns (idxs, ones (Z.to_nat budget)) /\
      Z.of_nat (length idxs) = budget) /\
  (forall k,
      scaled_log100 (Z.of_nat (length (compute_gradients C p))) budget
      = Some k ->
      (1 <= k <= Z.of_nat (length (compute_gradients C p)) - budget + 1 ->
       exists idxs,
         observe (select C "Stochastic" r budget p fuel s0)
         = Returns (idxs, ones (Z.to_nat budget)) /\
         Z.of_nat (length idxs) = budget) /\
      (Z.of_nat (length (compute_gradients C p)) - budget + 1 < k ->
       observe (select C "Stochastic" r budget p fuel s0)
       = Raises ValueError)).
Proof.
  intros Hrng Hb Hfuel. split.
  - destruct (naive_run C r budget p s0 fuel) as (s' & -> & Hlen & _);
      [lia|done|].
    by exists (greedySet s').
  - intros k Hk. split.
    + intros Hfit.
      destruct (stochastic_run_ok C r budget p s0 fuel k)
        as (s' & -> & Hlen); try done.
      by exists (greedySet s').
    + intros Hbig.
      destruct (stochastic_run_fail C r budget p s0 fuel k)
        as (s' & -> & _); done.
Qed.

Lemma budget_conformance_witness :
  observe (select (Toy.over Toy.pool5) "Stochastic" 15 5 tt 5
                  (Toy.fresh Toy.pool5))
  = Raises ValueError.
Proof.
  refine (proj2 (proj2
            (budget_conformance (Toy.over Toy.pool5) 15 5 tt
               (Toy.fresh Toy.pool5) 5 (toy_rng_ok Toy.pool5) _ _) 4 _) _).
  - simpl. lia.
  - simpl. lia.
  - vm_compute. reflexivity.
  - simpl. lia.
Defined.

(** C2, counterexample. With a pool of nine, budget 7 and [r = 2] the chunk
    size is 3 and three chunks are committed: nine indices come back,
    which is neither 7 nor [7 + 7 mod 3 = 8]. *)
Lemma rgreedy_length_counterexample :
  exists idxs w,
    observe (select (Toy.over (Toy.ramp 9)) "RGreedy" 2 7 tt 7
                    (Toy.fresh (Toy.ramp 9)))
    = Returns (idxs, w) /\
    Z.of_nat (length idxs) <> 7 /\
    Z.of_nat (length idxs) <> 7 + 7 mod (7 / 2).
Proof.
  eexists _, _. split; [vm_compute; reflexivity|]. split; vm_compute; done.
Qed.

(** C2, amended. For a valid budget and [r > 0] with chunk size
    [s = floor(budget / r) >= 1], RGreedy returns [min(N, T)] indices, where
    [T] is [budget] when [s] divides it and [budget + (s - budget mod s)]
    otherwise; each iteration commits the [min(s, |remaining|)] best
    remaining elements, in descending order of their scores. *)
Theorem rgreedy_chunks (C : collaborators) (r budget : Z)
    (p : params C) (s0 : state C) (fuel : nat) :
  0 < budget <= Z.of_nat (length (compute_gradients C p)) ->
  0 < r -> 1 <= budget / r ->
  (Z.to_nat budget <= fuel)%nat ->
  (exists idxs,
      observe (select C "RGreedy" r budget p fuel s0)
      = Returns (idxs, ones (Z.to_nat budget)) /\
      Z.of_nat (length idxs)
      = Z.min (Z.of_nat (length (compute_gradients C p)))
              (if budget mod (budget / r) =? 0 then budget
               else budget + (budget / r - budget mod (budget / r)))) /\
  (forall s, loop_inv (length (compute_gradients C p)) s ->
     exists chunk s',
       rgreedy_body C p (budget / r) s = Val tt s' /\
       greedySet s' = greedySet s ++ chunk /\
       remainSet s ≡ₚ chunk ++ remainSet s' /\
       Z.of_nat (length chunk)
       = Z.min (budget / r) (Z.of_nat (length (remainSet s))) /\
       StronglySorted (fun a b => gain s b <= gain s a) chunk /\
       (forall a b, a ∈ chunk -> b ∈ remainSet s' -> gain s b <= gain s a)).
Proof.
  intros Hb Hr Hsel Hfuel. split.
  - destruct (rgreedy_run C r budget p s0 fuel)
      as (s' & -> & Hnum & Hlen & _); try done.
    exists (greedySet s'). split; [done|].
    rewrite Hlen, Hnum, chunks_total by lia. lia.
  - intros s Hinv.
    destruct (rgreedy_body_spec C p (budget / r) s _ Hinv)
      as (chunk & s' & Hrun & Hg & Hperm & Hcl & Hsort & Htop & _).
    exists chunk, s'. repeat split; try done.
    rewrite Hcl by lia. lia.
Qed.

Lemma rgreedy_chunks_witness :
  exists idxs,
    observe (select (Toy.over (Toy.ramp 9)) "RGreedy" 2 7 tt 7
                    (Toy.fresh (Toy.ramp 9)))
    = Returns (idxs, ones 7) /\
    Z.of_nat (length idxs) = 9.
Proof.
  refine (proj1 (rgreedy_chunks (Toy.over (Toy.ramp 9)) 2 7 tt
                   (Toy.fresh (Toy.ramp 9)) 7 _ _ _ _)).
  - simpl. lia.
  - lia.
  - vm_compute. discriminate.
  - simpl. lia.
Defined.



(** C4. The Naive strategy writes into the gradient cache. Its first pick
    [b1] binds [grads_currX] to a view of cache row [b1], and the in-place
    addition of its second pick [b2] lands in that row: after a call with
    budget 2, row [b1] of [self.grads_per_elem] holds the sum of the rows
    that [compute_gradients] had produced for [b1] and [b2]. *)
Theorem naive_overwrites_cache (C : collaborators) (r : Z) (p : params C)
    (s0 : state C) (fuel : nat) :
  (2 <= length (compute_gradients C p))%nat -> (2 <= fuel)%nat ->
  exists b1 b2 row1 row2,
    observe (select C "Naive" r 2 p fuel s0) = Returns ([b1; b2], [1; 1]) /\
    b1 <> b2 /\
    compute_gradients C p !! b1 = Some row1 /\
    compute_gradients C p !! b2 = Some row2 /\
    grads_currX (state_of (select C "Naive" r 2 p fuel s0))
    = Some (RowView b1) /\
    grads_per_elem (state_of (select C "Naive" r 2 p fuel s0))
    = <[b1 := vadd row1 row2]> (compute_gradients C p).
Proof.
  intros HN Hfuel.
  destruct (naive_two_picks C r p s0 fuel HN Hfuel)
    as (b1 & b2 & row1 & row2 & s' & -> & Hne & H1 & H2 & _ & Hx & Hc).
  by exists b1, b2, row1, row2.
Qed.

Lemma naive_overwrites_cache_witness :
  (exists b1 b2 row1 row2,
      observe (select (Toy.over Toy.pool5) "Naive" 15 2 tt 2
                      (Toy.fresh Toy.pool5))
      = Returns ([b1; b2], [1; 1]) /\
      b1 <> b2 /\
      Toy.pool5 !! b1 = Some row1 /\
      Toy.pool5 !! b2 = Some row2 /\
      grads_currX (state_of (select (Toy.over Toy.pool5) "Naive" 15 2 tt 2
                                    (Toy.fresh Toy.pool5)))
      = Some (RowView b1) /\
      grads_per_elem (state_of (select (Toy.over Toy.pool5) "Naive" 15 2 tt 2
                                       (Toy.fresh Toy.pool5)))
      = <[b1 := vadd row1 row2]> Toy.pool5) /\
  Toy.pool5 = [[1; 0]; [0; 1]; [2; 0]; [0; 3]; [1; 1]] /\
  grads_per_elem (state_of (select (Toy.over Toy.pool5) "Naive" 15 2 tt 2
                                   (Toy.fresh Toy.pool5)))
  = [[1; 0]; [0; 1]; [2; 0]; [2; 3]; [1; 1]].
Proof.
  split.
  - apply (naive_overwrites_cache (Toy.over Toy.pool5) 15 tt
             (Toy.fresh Toy.pool5) 2); simpl; lia.
  - split; vm_compute; reflexivity.
Defined.

(** C3. After the second iteration of the Naive loop [grads_currX]
    denotes the sum of the two rows [compute_gradients] produced for the
    picks [b1] and [b2], but the cache rows of the selected elements, as
    they then stand, are that sum and the row of [b2]: added up they count
    the row of [b2] twice. *)
Theorem naive_sum_drifts (C : collaborators) (r : Z) (p : params C)
    (s0 : state C) (fuel : nat) :
  (2 <= length (compute_gradients C p))%nat -> (2 <= fuel)%nat ->
  exists b1 b2 row1 row2,
    greedySet (state_of (select C "Naive" r 2 p fuel s0)) = [b1; b2] /\
    compute_gradients C p !! b1 = Some row1 /\
    compute_gradients C p !! b2 = Some row2 /\
    currX_value (state_of (select C "Naive" r 2 p fuel s0))
    = Some (vadd row1 row2) /\
    cache_sum (state_of (select C "Naive" r 2 p fuel s0)) [b1; b2]
    = sum_dim0 (D C) [vadd row1 row2; row2].
Proof.
  intros HN Hfuel.
  destruct (naive_two_picks C r p s0 fuel HN Hfuel)
    as (b1 & b2 & row1 & row2 & s' & -> & Hne & H1 & H2 & Hg & Hx & Hc).
  exists b1, b2, row1, row2. simpl.
  assert (Hlt : (b1 < length (compute_gradients C p))%nat)
    by (by eapply lookup_lt_Some).
  split; [done|]. split; [done|]. split; [done|]. split.
  - unfold currX_value. rewrite Hx, Hc. by apply list_lookup_insert_eq.
  - unfold cache_sum. simpl. rewrite Hc.
    rewrite list_lookup_insert_eq by done.
    rewrite list_lookup_insert_ne by done. by rewrite H2.
Qed.

Lemma naive_sum_drifts_witness :
  (exists b1 b2 row1 row2,
      greedySet (state_of (select (Toy.over Toy.pool5) "Naive" 15 2 tt 2
                                  (Toy.fresh Toy.pool5)))
      = [b1; b2] /\
      Toy.pool5 !! b1 = Some row1 /\
      Toy.pool5 !! b2 = Some row2 /\
      currX_value (state_of (select (Toy.over Toy.pool5) "Naive" 15 2 tt 2
                                    (Toy.fresh Toy.pool5)))
      = Some (vadd row1 row2) /\
      cache_sum (state_of (select (Toy.over Toy.pool5) "Naive" 15 2 tt 2
                                  (Toy.fresh Toy.pool5))) [b1; b2]
      = sum_dim0 2 [vadd row1 row2; row2]) /\
  currX_value (state_of (select (Toy.over Toy.pool5) "Naive" 15 2 tt 2
                                (Toy.fresh Toy.pool5)))
  = Some [2; 3] /\
  cache_sum (state_of (select (Toy.over Toy.pool5) "Naive" 15 2 tt 2
                              (Toy.fresh Toy.pool5))) [3; 2]%nat
  = [4; 3].
Proof.
  split.
  - apply (naive_sum_drifts (Toy.over Toy.pool5) 15 tt
             (Toy.fresh Toy.pool5) 2); simpl; lia.
  - split; vm_compute; reflexivity.
Defined.

(** C6, counterexample. An unrecognised strategy name with budget 2 on the
    five-element pool does not fail: [select] falls through the strategy
    tests and returns the empty list with two weights. *)
Lemma unknown_strategy_counterexample :
  observe (select (Toy.over Toy.pool5) "Greedy" 15 2 tt 0
                  (Toy.fresh Toy.pool5))
  = Returns ([], [1; 1]).
Proof. vm_compute. reflexivity. Qed.

(** C6, amended. [select] validates nothing up front; the gradient cache and
    the first validation gradient are always computed first. With an
    unrecognised strategy and a budget of at least zero it returns the
    empty list with [budget] weights. With the Naive strategy a negative
    budget fails only in the closing [torch.ones(budget)], and a budget
    above the pool size fails only after every element of the pool has been
    selected, when [argmax] meets the empty remaining set. A failure is an
    exception: the selected list built so far is not returned. *)
Theorem no_validation (C : collaborators) (ty : string) (r budget : Z)
    (p : params C) (s0 : state C) (fuel : nat) :
  ty <> "RGreedy"%string -> ty <> "Stochastic"%string ->
  ty <> "Naive"%string ->
  (length (compute_gradients C p) < fuel)%nat ->
  (0 <= budget ->
   select C ty r budget p fuel s0
   = Val ([], ones (Z.to_nat budget)) (init_state p s0)) /\
  (budget < 0 ->
   select C "Naive" r budget p fuel s0
   = Exn RuntimeError (init_state p s0)) /\
  (Z.of_nat (length (compute_gradients C p)) < budget ->
   exists s',
     select C "Naive" r budget p fuel s0 = Exn RuntimeError s' /\
     length (grads_per_elem s') = length (compute_gradients C p) /\
     numSelected s' = Z.of_nat (length (compute_gradients C p)) /\
     length (greedySet s') = length (compute_gradients C p)).
Proof.
  intros H1 H2 H3 Hfuel. split; [|split].
  - intros Hb. rewrite select_other by done. rewrite finish_eq.
    destruct (Z.ltb_spec budget 0); [lia|done].
  - intros Hb. rewrite select_Naive. unfold bind.
    assert (Hstop : loop_cond budget (init_state p s0) = false)
      by (unfold loop_cond; apply Z.ltb_ge; simpl; lia).
    destruct fuel; simpl; rewrite Hstop; rewrite finish_eq;
      (destruct (Z.ltb_spec budget 0); [done|lia]).
  - intros Hb.
    destruct (naive_run_over C r budget p s0 fuel Hb Hfuel)
      as (s' & Hrun & Hnum & Hlen & _).
    exists s'. split; [done|]. split; [|done].
    assert (Hinv : loop_inv (length (compute_gradients C p)) (state_of
              (select C "Naive" r budget p fuel s0))).
    { rewrite select_Naive, state_of_finish.
      eapply steady_invariant; [apply naive_steady|apply loop_inv_init]. }
    rewrite Hrun in Hinv. simpl in Hinv. by destruct Hinv as (_ & ? & _).
Qed.

Lemma no_validation_witness :
  select (Toy.over Toy.pool5) "Greedy" 15 2 tt 6 (Toy.fresh Toy.pool5)
  = Val ([], [1; 1])
        (init_state (C := Toy.over Toy.pool5) tt (Toy.fresh Toy.pool5)) /\
  exists s',
    select (Toy.over Toy.pool5) "Naive" 15 6 tt 6 (Toy.fresh Toy.pool5)
    = Exn RuntimeError s' /\
    Glister.numSelected s' = 5.
Proof.
  pose proof (no_validation (Toy.over Toy.pool5) "Greedy" 15 2 tt
                (Toy.fresh Toy.pool5) 6
                ltac:(discriminate) ltac:(discriminate) ltac:(discriminate)
                ltac:(simpl; lia)) as H2.
  pose proof (no_validation (Toy.over Toy.pool5) "Greedy" 15 6 tt
                (Toy.fresh Toy.pool5) 6
                ltac:(discriminate) ltac:(discriminate) ltac:(discriminate)
                ltac:(simpl; lia)) as H6.
  split.
  - exact (proj1 H2 ltac:(lia)).
  - destruct (proj2 (proj2 H6) ltac:(simpl; lia)) as (s' & Hrun & _ & Hn & _).
    exists s'. split; [exact Hrun|exact Hn].
Defined.

(** C7, counterexample. For a pool of ten and budget 10 the product
    [(10 / 10) * ln(100)] is 4.605...; [select] truncates it to 4 where
    rounding gives 5, and the sample of the first iteration has four
    elements. *)
Lemma subset_size_counterexample :
  exists k sample,
    subset_size_of (Toy.over (Toy.ramp 10)) 10 10
      (init_state (C := Toy.over (Toy.ramp 10)) tt (Toy.fresh (Toy.ramp 10)))
    = Val k (init_state (C := Toy.over (Toy.ramp 10)) tt
                        (Toy.fresh (Toy.ramp 10))) /\
    Numpy.choice (rev (seq 0 10)) (seq 0 10) k = Some sample /\
    Z.of_nat (length sample) = 4 /\
    subset_size_round 10 10 = Some 5 /\
    subset_size_round 10 10 <> Some (Z.of_nat (length sample)).
Proof.
  exists 4, [9; 8; 7; 6]%nat. vm_compute. repeat split; done.
Qed.

(** C7, amended. In the Stochastic strategy the sample size is
    [k = int((|pool| / budget) * ln(100))], truncated and computed once
    before the loop. Each iteration in which [1 <= k <= |remaining|] draws
    [k] distinct elements of the remaining set and moves the one with the
    highest score among them from the remaining to the selected set. *)
Theorem stochastic_iteration (C : collaborators) (r budget : Z)
    (p : params C) (s0 : state C) (fuel : nat) (k : Z) :
  rng_ok C ->
  budget <> 0 ->
  scaled_log100 (Z.of_nat (length (compute_gradients C p))) budget = Some k ->
  select C "Stochastic" r budget p fuel s0
  = bind (while fuel (loop_cond budget) (stochastic_body C p k))
         (fun _ => finish budget) (init_state p s0) /\
  (forall s,
     loop_inv (length (compute_gradients C p)) s ->
     1 <= k <= Z.of_nat (length (remainSet s)) ->
     exists sample bestId s',
       Numpy.choice
         (fst (np_permutation C (rng s) (length (remainSet s))))
         (remainSet s) k = Some sample /\
       Z.of_nat (length sample) = k /\
       NoDup sample /\
       (forall a, a ∈ sample -> a ∈ remainSet s) /\
       bestId ∈ sample /\
       (forall a, a ∈ sample -> gain s a <= gain s bestId) /\
       stochastic_body C p k s = Val tt s' /\
       greedySet s' = greedySet s ++ [bestId] /\
       remainSet s ≡ₚ bestId :: remainSet s' /\
       numSelected s' = numSelected s + 1).
Proof.
  intros Hrng Hb Hk. split.
  - rewrite select_Stochastic. unfold bind at 1 2.
    rewrite (subset_size_of_Some C _ _ k) by done. reflexivity.
  - intros s Hinv Hfit.
    destruct (stochastic_body_spec C p k s _ Hrng Hinv) as (_ & _ & Hgood).
    destruct (Hgood Hfit)
      as (sample & bestId & Hch & Hlen & Hnd & Hsub & Hin & Hmax & Hrun).
    set (g := snd (np_permutation C (rng s) (length (remainSet s)))) in *.
    destruct (commit_best_inv C p bestId (set_rng g s)
                (length (compute_gradients C p)))
      as (s' & Hrun' & _ & Hg & Hperm & Hn & _).
    { by apply loop_inv_set_rng. }
    { simpl. by apply Hsub. }
    exists sample, bestId, s'.
    split; [done|]. split; [lia|]. split; [done|]. split; [done|].
    split; [done|]. split; [done|]. split; [congruence|].
    split; [done|]. split; done.
Qed.

Lemma stochastic_iteration_witness :
  select (Toy.over (Toy.ramp 16)) "Stochastic" 15 8 tt 8
         (Toy.fresh (Toy.ramp 16))
  = bind (while 8 (loop_cond 8)
                (stochastic_body (Toy.over (Toy.ramp 16)) tt 9))
         (fun _ => finish 8)
         (init_state (C := Toy.over (Toy.ramp 16)) tt
                     (Toy.fresh (Toy.ramp 16))).
Proof.
  refine (proj1 (stochastic_iteration (Toy.over (Toy.ramp 16)) 15 8 tt
                   (Toy.fresh (Toy.ramp 16)) 8 9
                   (toy_rng_ok (Toy.ramp 16)) _ _)).
  - lia.
  - vm_compute. reflexivity.
Defined.

(** C8. Under the Naive strategy the outcome of [select] is a function of
    the budget and the model parameters alone: whatever the object held
    before the call, whatever the state of numpy's generator and whatever
    [r], two calls return the same ordered list of indices (or raise the
    same exception). In particular a second call on the object the first
    one left behind repeats its result. *)
Theorem naive_deterministic (C : collaborators) (r1 r2 budget : Z)
    (p : params C) (fuel : nat) (s1 s2 : state C) :
  observe (select C "Naive" r1 budget p fuel s1)
  = observe (select C "Naive" r2 budget p fuel s2) /\
  observe (select C "Naive" r2 budget p fuel
                  (state_of (select C "Naive" r1 budget p fuel s1)))
  = observe (select C "Naive" r1 budget p fuel s1).
Proof.
  split.
  - rewrite (select_Naive_set_rng C r1 r2 budget p fuel s1 s2).
    by rewrite observe_res_map.
  - rewrite (select_Naive_set_rng C r1 r2 budget p fuel s1
               (state_of (select C "Naive" r1 budget p fuel s1))).
    by rewrite observe_res_map.
Qed.

(** C9. With budget 0 the Naive strategy and the RGreedy strategy (for a
    non-zero [r]) run no iteration and return the empty list with an empty
    weight vector, leaving the state the prelude of [select] built. The
    Stochastic strategy divides the pool size by the budget before its loop
    and raises [ZeroDivisionError]. *)
Theorem zero_budget (C : collaborators) (r : Z) (p : params C)
    (s0 : state C) (fuel : nat) :
  select C "Naive" r 0 p fuel s0 = Val ([], []) (init_state p s0) /\
  select C "RGreedy" r 0 p fuel s0
  = (if r =? 0 then Exn ZeroDivisionError (init_state p s0)
     else Val ([], []) (init_state p s0)) /\
  select C "Stochastic" r 0 p fuel s0
  = Exn ZeroDivisionError (init_state p s0).
Proof.
  split; [|split].
  - rewrite select_Naive. unfold bind. by destruct fuel.
  - rewrite select_RGreedy. unfold bind, selection_size_of.
    destruct (r =? 0); [done|]. simpl. by destruct fuel.
  - rewrite select_Stochastic. done.
Qed.

End Properties.

(* ===================================================================== *)
(** ** Further properties of the selector *)
(* ===================================================================== *)

Module Extras.
Import Py Torch Glister Spec PyFacts TorchFacts BodyFacts LoopFacts.
Import SelectFacts.

Lemma pool_rng_ok (cache : matrix) : rng_ok (Toy.over cache).
Proof. intros g n. simpl. symmetry. apply Permutation_rev. Qed.

Lemma observe_Returns_Val {C : collaborators} {A : Type} (x : res C A) a :
  observe x = Returns a -> exists s, x = Val a s.
Proof. destruct x; simpl; intros; simplify_eq; eauto. Qed.

(** A loop whose body always completes either finishes or is still
    running: it does not raise. *)
Lemma while_completes (C : collaborators) (I : state C -> Prop) cond
    (body : M C unit) :
  (forall s, I s -> cond s = true -> exists s', body s = Val tt s' /\ I s') ->
  forall fuel s, I s ->
    exists s', I s' /\
               (while fuel cond body s = Val tt s' \/
                while fuel cond body s = Fuel s').
Proof.
  intros Hbody. induction fuel as [|fuel IH]; intros s Hs; simpl.
  - exists s. split; [done|]. destruct (cond s); [by right|by left].
  - destruct (cond s) eqn:Hc; [|exists s; split; [done|by left]].
    destruct (Hbody s Hs Hc) as (s1 & Hb & Hs1).
    unfold bind. rewrite Hb. by apply IH.
Qed.

Lemma naive_body_rng (C : collaborators) (p : params C) n (s : state C) :
  loop_inv n s -> rng (state_of (naive_body C p s)) = rng s.
Proof.
  intros Hinv. destruct (naive_body_spec C p s n Hinv) as [Hnil Hcons].
  destruct (remainSet s) as [|a l] eqn:E.
  - by rewrite Hnil.
  - destruct Hcons as (bestId & Hin & _ & ->); [done|].
    rewrite <- E in Hin.
    by destruct (commit_best_inv C p bestId s n Hinv Hin)
      as (s' & -> & _ & _ & _ & _ & Hrng).
Qed.

Lemma rgreedy_body_rng (C : collaborators) (p : params C) sel n
    (s : state C) :
  loop_inv n s -> rng (state_of (rgreedy_body C p sel s)) = rng s.
Proof.
  intros Hinv.
  by destruct (rgreedy_body_spec C p sel s n Hinv)
    as (chunk & s' & -> & _ & _ & _ & _ & _ & _ & Hrng & _).
Qed.

(** X2. Only the Stochastic strategy draws from numpy's generator. With any
    other strategy name the generator is in the same state after [select]
    (returned, raised or still running) as before it; a completed
    Stochastic iteration advances it by exactly one permutation of the
    remaining positions. *)
Theorem generator_use (C : collaborators) (ty : string) (r budget : Z)
    (p : params C) (s0 : state C) (fuel : nat) :
  ty <> "Stochastic"%string ->
  rng (state_of (select C ty r budget p fuel s0)) = rng s0 /\
  (rng_ok C ->
   forall k n (s : state C),
     loop_inv n s -> 1 <= k <= Z.of_nat (length (remainSet s)) ->
     exists s', stochastic_body C p k s = Val tt s' /\
                rng s'
                = snd (np_permutation C (rng s) (length (remainSet s)))).
Proof.
  intros Hty. split.
  - rewrite select_eq, state_of_finish. unfold select_loop.
    apply String.eqb_neq in Hty. rewrite Hty.
    set (n := length (compute_gradients C p)).
    set (I := fun s : state C => loop_inv n s /\ rng s = rng s0).
    assert (HI0 : I (init_state p s0)) by (split; [apply loop_inv_init|done]).
    destruct (String.eqb ty "RGreedy").
    { unfold bind, try. destruct (selection_size_of budget r) as [sel|];
        [|done].
      unfold ret.
      apply (while_invariant C I (loop_cond budget) (rgreedy_body C p sel));
        [|done].
      intros s [Hinv Hrng] Hc. split.
      - by destruct (rgreedy_steady C p sel n budget s Hinv Hc).
      - by rewrite (rgreedy_body_rng C p sel n s Hinv). }
    destruct (String.eqb ty "Naive"); [|done].
    apply (while_invariant C I (loop_cond budget) (naive_body C p)); [|done].
    intros s [Hinv Hrng] Hc. split.
    + by destruct (naive_steady C p n budget s Hinv Hc).
    + by rewrite (naive_body_rng C p n s Hinv).
  - intros Hrng k n s Hinv Hk.
    destruct (stochastic_body_spec C p k s n Hrng Hinv) as (_ & _ & Hgood).
    destruct (Hgood Hk) as (sample & bestId & _ & _ & _ & Hsub & Hin & _ & ->).
    set (g := snd (np_permutation C (rng s) (length (remainSet s)))).
    destruct (commit_best_inv C p bestId (set_rng g s) n)
      as (s' & -> & _ & _ & _ & _ & Hr).
    { by apply loop_inv_set_rng. }
    { simpl. by apply Hsub. }
    by exists s'.
Qed.

Lemma generator_use_witness :
  rng (state_of (select (Toy.over Toy.pool5) "Naive" 15 3 tt 3
                        (Toy.fresh Toy.pool5)))
  = 0%nat.
Proof.
  exact (proj1 (generator_use (Toy.over Toy.pool5) "Naive" 15 3 tt
                  (Toy.fresh Toy.pool5) 3 ltac:(discriminate))).
Defined.

(** X3. Under RGreedy nothing before the return statement raises except
    the division by [r = 0], which gives [ZeroDivisionError] before the
    first iteration. For a non-zero [r], with [r] and [budget] below
    [2^53] in absolute value (where [int(budget / self.r)] is the integer
    quotient), the loop raises in no iteration, whatever the pool and also
    when the budget exceeds it; a negative budget runs zero iterations and
    fails at the closing [torch.ones(budget)], leaving the object as the
    prelude set it. *)
Theorem rgreedy_errors (C : collaborators) (r budget : Z)
    (p : params C) (s0 : state C) (fuel : nat) :
  (r = 0 ->
   select C "RGreedy" r budget p fuel s0
   = Exn ZeroDivisionError (init_state p s0)) /\
  (r <> 0 -> Z.abs r < 2 ^ 53 -> Z.abs budget < 2 ^ 53 ->
   (forall e s', select_loop "RGreedy" r budget p fuel (init_state p s0)
                 <> Exn e s') /\
   (budget < 0 ->
    select_loop "RGreedy" r budget p fuel (init_state p s0)
    = Val tt (init_state p s0) /\
    select C "RGreedy" r budget p fuel s0
    = Exn RuntimeError (init_state p s0))).
Proof.
  split.
  - intros ->. rewrite select_RGreedy. reflexivity.
  - intros Hr _ _.
    assert (Hloop : select_loop "RGreedy" r budget p fuel (init_state p s0)
                    = while fuel (loop_cond budget)
                        (rgreedy_body C p (Z.quot budget r))
                        (init_state p s0)).
    { unfold select_loop. simpl. unfold bind, selection_size_of.
      by destruct (Z.eqb_spec r 0). }
    split.
    + intros e s'. rewrite Hloop.
      set (n := length (compute_gradients C p)).
      destruct (while_completes C (loop_inv n) (loop_cond budget)
                  (rgreedy_body C p (Z.quot budget r)))
        with (fuel := fuel) (s := init_state p s0)
        as (s1 & _ & [-> | ->]); try done.
      * intros s Hinv Hc.
        destruct (rgreedy_body_spec C p (Z.quot budget r) s n Hinv)
          as (chunk & s2 & Hrun & Hg & Hperm & _ & _ & _ & _ & _ & Hlen & Hx
              & _).
        exists s2. split; [done|].
        split; [|split; [done|by intros _]].
        unfold partitioned. rewrite Hg, <- app_assoc, <- Hperm.
        by destruct Hinv.
      * apply loop_inv_init.
    + intros Hb.
      assert (Hstop : loop_cond budget (init_state p s0) = false)
        by (unfold loop_cond; apply Z.ltb_ge; simpl; lia).
      split.
      * rewrite Hloop. by rewrite while_stop.
      * rewrite select_eq. unfold bind. rewrite Hloop.
        rewrite while_stop by done. rewrite finish_eq.
        by destruct (Z.ltb_spec budget 0); [|lia].
Qed.

Lemma rgreedy_errors_witness :
  select (Toy.over Toy.pool5) "RGreedy" 0 3 tt 3 (Toy.fresh Toy.pool5)
  = Exn ZeroDivisionError
        (init_state (C := Toy.over Toy.pool5) tt (Toy.fresh Toy.pool5)) /\
  select_loop (C := Toy.over Toy.pool5) "RGreedy" 2 40 tt 50
              (init_state (C := Toy.over Toy.pool5) tt (Toy.fresh Toy.pool5))
  <> Exn IndexError
         (init_state (C := Toy.over Toy.pool5) tt (Toy.fresh Toy.pool5)).
Proof.
  split.
  - exact (proj1 (rgreedy_errors (Toy.over Toy.pool5) 0 3 tt
                    (Toy.fresh Toy.pool5) 3) eq_refl).
  - exact (proj1 (proj2 (rgreedy_errors (Toy.over Toy.pool5) 2 40 tt
                           (Toy.fresh Toy.pool5) 50)
                    ltac:(lia) ltac:(simpl; lia) ltac:(simpl; lia))
             IndexError _).
Defined.

(** The RGreedy loop for any positive budget, also one above the pool
    size. *)
Lemma rgreedy_run_any (C : collaborators) r budget (p : params C) s0 fuel :
  0 < budget -> 0 < r -> 1 <= budget / r ->
  (Z.to_nat budget <= fuel)%nat ->
  exists s', select_loop "RGreedy" r budget p fuel (init_state p s0)
             = Val tt s' /\
             budget <= numSelected s' /\
             Z.of_nat (length (greedySet s'))
             = Z.min (numSelected s')
                     (Z.of_nat (length (compute_gradients C p))) /\
             loop_inv (length (compute_gradients C p)) s'.
Proof.
  intros Hb Hr Hsel Hfuel.
  set (n := length (compute_gradients C p)) in *.
  set (sel := budget / r) in *.
  set (K := (budget + sel - 1) / sel).
  pose proof (chunks_bounds budget sel ltac:(lia) ltac:(lia)) as HK.
  fold K in HK.
  assert (HKpos : 0 < K) by nia.
  assert (HKle : K <= budget) by nia.
  set (P := fun (j : nat) (s : state C) =>
              loop_inv n s /\
              numSelected s + sel * Z.of_nat j = sel * K /\
              0 <= numSelected s /\
              Z.of_nat (length (greedySet s))
              = Z.min (numSelected s) (Z.of_nat n)).
  destruct (while_steps C P (loop_cond budget) (rgreedy_body C p sel))
    with (j := Z.to_nat K) (s := init_state p s0)
    as (s' & (Hinv & Hnum & Hnn & Hlen) & Hrun).
  - intros j s (Hi & Hn & Hn0 & Hl). split.
    + unfold loop_cond. apply Z.ltb_lt. nia.
    + destruct (rgreedy_body_spec C p sel s n Hi)
        as (chunk & s2 & Hb2 & Hg & Hperm & Hcl & _ & _ & Hn2 & _ & Hlen2
            & Hx2 & _).
      pose proof (partitioned_length C n s (proj1 Hi)) as Hpl.
      specialize (Hcl ltac:(lia)).
      exists s2. split; [done|]. unfold P.
      split; [|split; [lia|split; [lia|]]].
      * split; [|split; [done|by intros _]].
        unfold partitioned. rewrite Hg, <- app_assoc, <- Hperm.
        by destruct Hi.
      * rewrite Hg, length_app, Hn2. lia.
  - unfold P. simpl. split; [apply loop_inv_init|].
    split; [lia|]. split; lia.
  - exists s'. unfold select_loop. simpl. unfold bind.
    rewrite (selection_size_floor budget r) by lia. simpl. fold sel.
    replace fuel with (Z.to_nat K + (fuel - Z.to_nat K))%nat by lia.
    rewrite Hrun.
    assert (Hstop : loop_cond budget s' = false)
      by (unfold loop_cond; apply Z.ltb_ge; lia).
    rewrite (while_stop C) by done.
    split; [done|]. split; [lia|]. split; done.
Qed.

(** X4. The RGreedy loop accepts a budget at or above the pool size: with
    [r > 0], a chunk size of at least one and a budget below [2^53] (where
    [int(budget / self.r)] is the integer quotient) the loop completes
    without raising, having selected every index of the pool exactly once
    and emptied the remaining list; the call ends in that state, and a
    list it returns is that selection. *)
Theorem rgreedy_exhausts_pool (C : collaborators) (r budget : Z)
    (p : params C) (s0 : state C) (fuel : nat) :
  0 < r -> 1 <= budget / r ->
  Z.of_nat (length (compute_gradients C p)) <= budget ->
  budget < 2 ^ 53 ->
  (Z.to_nat budget <= fuel)%nat ->
  exists s',
    select_loop "RGreedy" r budget p fuel (init_state p s0) = Val tt s' /\
    greedySet s' ≡ₚ seq 0 (length (compute_gradients C p)) /\
    remainSet s' = [] /\
    state_of (select C "RGreedy" r budget p fuel s0) = s' /\
    (forall idxs w,
       observe (select C "RGreedy" r budget p fuel s0) = Returns (idxs, w) ->
       idxs = greedySet s').
Proof.
  intros Hr Hsel HN _ Hfuel.
  assert (Hb : 0 < budget).
  { destruct (Z_lt_le_dec 0 budget) as [|Hle]; [done|].
    pose proof (Z.div_le_upper_bound budget r 0 Hr ltac:(lia)). lia. }
  destruct (rgreedy_run_any C r budget p s0 fuel Hb Hr Hsel Hfuel)
    as (s' & Hrun & Hnum & Hlen & Hinv).
  exists s'. split; [done|].
  pose proof (partitioned_length C _ _ (proj1 Hinv)) as Hpl.
  assert (Hnil : remainSet s' = [])
    by (destruct (remainSet s'); [done|simpl in Hpl; lia]).
  split.
  { destruct Hinv as (Hpart & _). unfold partitioned in Hpart.
    by rewrite Hnil, app_nil_r in Hpart. }
  split; [done|].
  rewrite (select_eq C). split.
  - by rewrite (state_of_finish C), Hrun.
  - intros idxs w. unfold bind. rewrite Hrun, (finish_eq C).
    destruct (budget <? 0); simpl; [done|]. congruence.
Qed.

Lemma rgreedy_exhausts_pool_witness :
  exists s',
    select_loop (C := Toy.over Toy.pool5) "RGreedy" 3 12 tt 12
      (init_state (C := Toy.over Toy.pool5) tt (Toy.fresh Toy.pool5))
    = Val tt s' /\
    greedySet s' ≡ₚ [0; 1; 2; 3; 4]%nat /\
    remainSet s' = [].
Proof.
  destruct (rgreedy_exhausts_pool (Toy.over Toy.pool5) 3 12 tt
              (Toy.fresh Toy.pool5) 12)
    as (s' & Hrun & Hperm & Hnil & _).
  - lia.
  - vm_compute. discriminate.
  - simpl. lia.
  - simpl. lia.
  - simpl. lia.
  - exists s'. split; [exact Hrun|]. split; [exact Hperm|exact Hnil].
Defined.

(** X5. With [r = 1] the RGreedy strategy is a single sort: for a valid
    budget it runs exactly one iteration and returns [budget] distinct
    indices of the pool, those that score highest under the first
    validation gradient, in descending order of that score; every element
    left out scores no higher than any element returned. *)
Theorem rgreedy_one_shot (C : collaborators) (budget : Z)
    (p : params C) (s0 : state C) (fuel : nat) :
  0 < budget <= Z.of_nat (length (compute_gradients C p)) ->
  (1 <= fuel)%nat ->
  exists idxs s',
    select C "RGreedy" 1 budget p fuel s0
    = Val (idxs, ones (Z.to_nat budget)) s' /\
    rgreedy_body C p budget (init_state p s0) = Val tt s' /\
    Z.of_nat (length idxs) = budget /\
    NoDup idxs /\
    (forall a, a ∈ idxs -> (a < length (compute_gradients C p))%nat) /\
    StronglySorted (fun a b => gain (init_state p s0) b
                               <= gain (init_state p s0) a) idxs /\
    (forall a b, a ∈ idxs ->
                 (b < length (compute_gradients C p))%nat -> b ∉ idxs ->
                 gain (init_state p s0) b <= gain (init_state p s0) a).
Proof.
  intros Hb Hfuel. set (n := length (compute_gradients C p)) in *.
  set (sa := init_state p s0).
  pose proof (loop_inv_init C p s0) as Hia. fold n sa in Hia.
  destruct (rgreedy_body_spec C p budget sa n Hia)
    as (chunk & s' & Hrun & Hg & Hperm & Hcl & Hsort & Htop & Hn & _).
  specialize (Hcl ltac:(lia)).
  assert (Hrem : remainSet sa = seq 0 n) by done.
  assert (Hnd : NoDup (chunk ++ remainSet s'))
    by (rewrite <- Hperm, Hrem; apply NoDup_seq).
  exists chunk, s'.
  split; [|split; [done|split; [|split; [|split; [|split; [done|]]]]]].
  - rewrite (select_RGreedy C). unfold bind at 1 2.
    unfold selection_size_of. simpl. rewrite Z.quot_1_r.
    destruct fuel as [|fuel]; [lia|].
    rewrite (while_step_Val C _ _ _ sa s');
      [|unfold loop_cond; apply Z.ltb_lt; simpl; lia|done].
    rewrite (while_stop C)
      by (unfold loop_cond; apply Z.ltb_ge; rewrite Hn; simpl; lia).
    rewrite (finish_eq C). destruct (Z.ltb_spec budget 0); [lia|].
    by rewrite Hg.
  - rewrite Hcl, Hrem, length_seq. lia.
  - by apply NoDup_app in Hnd as (? & _).
  - intros a Ha.
    assert (Hin : a ∈ seq 0 n)
      by (rewrite <- Hrem, Hperm; apply elem_of_app; by left).
    apply elem_of_seq in Hin. lia.
  - intros a b Ha Hlt Hnot. apply Htop; [done|].
    assert (Hin : b ∈ remainSet sa)
      by (rewrite Hrem; apply elem_of_seq; lia).
    rewrite Hperm in Hin. apply elem_of_app in Hin as [|]; done.
Qed.

Lemma rgreedy_one_shot_witness :
  exists idxs s',
    select (Toy.over Toy.pool5) "RGreedy" 1 3 tt 1 (Toy.fresh Toy.pool5)
    = Val (idxs, ones 3) s' /\
    Z.of_nat (length idxs) = 3 /\ NoDup idxs.
Proof.
  destruct (rgreedy_one_shot (Toy.over Toy.pool5) 3 tt
              (Toy.fresh Toy.pool5) 1 ltac:(simpl; lia) ltac:(lia))
    as (idxs & s' & Hrun & _ & Hlen & Hnd & _).
  exists idxs, s'. split; [exact Hrun|]. split; [exact Hlen|exact Hnd].
Defined.

(** *** Ties and the order of the remaining list *)

Lemma argmax_from_first (L : list Z) :
  forall t pre best besti,
    L = pre ++ t ->
    (besti < length pre)%nat ->
    nth besti L 0 = best ->
    (forall j, (j < length pre)%nat -> nth j L 0 <= best) ->
    (forall j, (j < besti)%nat -> nth j L 0 < best) ->
    forall j, (j < argmax_from best besti (length pre) t)%nat ->
              nth j L 0 < nth (argmax_from best besti (length pre) t) L 0.
Proof.
  induction t as [|x t IH]; intros pre best besti HL Hb Hbest Hmax Hfirst;
    simpl.
  - intros j Hj. rewrite Hbest. by apply Hfirst.
  - assert (HL' : L = (pre ++ [x]) ++ t) by (by rewrite <- app_assoc).
    assert (Hlen : length (pre ++ [x]) = S (length pre))
      by (rewrite length_app; simpl; lia).
    assert (Hx : nth (length pre) L 0 = x).
    { rewrite HL. rewrite app_nth2 by lia.
      by replace (length pre - length pre)%nat with 0%nat by lia. }
    destruct (Z.ltb_spec best x) as [Hlt|Hge].
    + specialize (IH (pre ++ [x]) x (length pre) HL').
      rewrite Hlen in IH. apply IH; [lia|done| |].
      * intros j Hj. destruct (decide (j = length pre)) as [->|Hne].
        -- rewrite Hx. lia.
        -- specialize (Hmax j). lia.
      * intros j Hj. specialize (Hmax j Hj). lia.
    + specialize (IH (pre ++ [x]) best besti HL').
      rewrite Hlen in IH. apply IH; [lia|done| |done].
      intros j Hj. destruct (decide (j = length pre)) as [->|Hne].
      * rewrite Hx. lia.
      * apply Hmax. lia.
Qed.

(** [argmax] returns the first of the maximal positions. *)
Lemma argmax_first (l : list Z) k :
  argmax l = Some k -> forall j, (j < k)%nat -> score l j < score l k.
Proof.
  destruct l as [|x t]; [done|]. intros [= <-] j Hj.
  apply (argmax_from_first (x :: t) t [x] x 0%nat); simpl; try done; try lia.
  intros i Hi. by replace i with 0%nat by lia.
Qed.

Lemma remove_sorted (x : nat) (l l' : list nat) :
  remove x l = Some l' ->
  StronglySorted Nat.lt l -> StronglySorted Nat.lt l'.
Proof.
  revert l'. induction l as [|y t IH]; intros l' Hrem Hs; simpl in Hrem.
  - done.
  - apply StronglySorted_cons in Hs as [Hall Hs].
    destruct (Nat.eqb x y); [by simplify_eq|].
    destruct (remove x t) as [t'|] eqn:E; [|done]. simplify_eq.
    apply StronglySorted_cons. split; [|by apply IH].
    destruct (remove_Some x t) as (t'' & E' & Hp).
    { destruct (decide (x ∈ t)) as [|Hn]; [done|].
      exfalso. clear -E Hn. revert t' E.
      induction t as [|z t IH]; intros t' E; simpl in E; [done|].
      destruct (Nat.eqb_spec x z) as [->|]; [apply Hn; by left|].
      destruct (remove x t) eqn:E2; [|done].
      eapply IH; [|done]. intros Hin. apply Hn. by right. }
    assert (t'' = t') by congruence. subst t''.
    rewrite Hp in Hall. by apply Forall_cons in Hall as [_ ?].
Qed.

Lemma sorted_lookup_le (l : list nat) j k a b :
  StronglySorted Nat.lt l ->
  l !! j = Some a -> l !! k = Some b -> (k <= j)%nat -> (b <= a)%nat.
Proof.
  intros Hs. revert j k. induction Hs as [|x l Hs IH Hall]; intros j k Hj Hk Hle.
  - done.
  - destruct k as [|k], j as [|j]; simpl in *; simplify_eq; try lia.
    + rewrite Forall_forall in Hall.
      assert (b < a)%nat; [|lia].
      apply Hall. apply list_elem_of_lookup. eauto.
    + eapply IH; eauto. lia.
Qed.

Lemma sorted_seq (n : nat) : StronglySorted Nat.lt (seq 0 n).
Proof.
  generalize 0%nat. induction n as [|n IH]; intros m; simpl; [constructor|].
  constructor; [apply IH|].
  apply Forall_forall. intros x Hx. apply elem_of_seq in Hx. lia.
Qed.

(** The pick of one Naive iteration, with the position [argmax] found. *)
Lemma naive_body_pick (C : collaborators) (p : params C) n (s : state C) :
  loop_inv n s -> remainSet s <> [] ->
  exists rows k bestId rest s',
    Forall2 (fun i row => grads_per_elem s !! i = Some row)
            (remainSet s) rows /\
    argmax (matmul rows (grads_val_curr s)) = Some k /\
    remainSet s !! k = Some bestId /\
    remove bestId (remainSet s) = Some rest /\
    naive_body C p s = Val tt s' /\
    greedySet s' = greedySet s ++ [bestId] /\
    remainSet s' = rest /\
    loop_inv n s'.
Proof.
  intros Hinv Hne.
  destruct (index_rows_Some (grads_per_elem s) (remainSet s))
    as (rows & Hrows & Hall).
  { intros i Hi. by eapply inv_remain_lt. }
  pose proof (index_rows_length _ _ _ Hall) as Hlen.
  destruct (argmax_Some (matmul rows (grads_val_curr s)))
    as (k & Hk & Hklt & _).
  { intros E. apply (f_equal length) in E.
    rewrite length_matmul, Hlen in E. by destruct (remainSet s). }
  rewrite length_matmul, Hlen in Hklt.
  destruct (lookup_lt_is_Some_2 _ _ Hklt) as [bestId Hbest].
  assert (Hin : bestId ∈ remainSet s)
    by (apply list_elem_of_lookup; eauto).
  destruct (remove_Some _ _ Hin) as (rest & Hrem & _).
  pose proof (inv_remain_lt C s n bestId Hinv Hin) as Hlt.
  destruct (commit_best_inv C p bestId s n Hinv Hin)
    as (s' & Hrun & Hinv' & Hg & _).
  destruct (commit_best_spec C p bestId s rest Hrem Hlt)
    as (s'' & Hrun' & _ & Hr & _).
  { intros Hpos. destruct Hinv as (_ & Hl & Hb). rewrite Hl. by apply Hb. }
  assert (s'' = s') by congruence. subst s''.
  exists rows, k, bestId, rest, s'.
  do 4 (split; [done|]). split; [|done].
  unfold naive_body. run. done.
Qed.

(** X6. The Naive strategy is greedy with a fixed tie rule. The remaining
    list stays in ascending order throughout a run, and each iteration
    commits an element whose score is maximal among the remaining ones;
    when several remaining elements share the maximal score, the one with
    the smallest index is taken. *)
Theorem naive_step (C : collaborators) (r budget : Z) (p : params C)
    (s0 : state C) (fuel : nat) :
  StronglySorted Nat.lt
    (remainSet (state_of (select C "Naive" r budget p fuel s0))) /\
  (forall n (s : state C),
     loop_inv n s -> StronglySorted Nat.lt (remainSet s) ->
     remainSet s <> [] ->
     exists bestId s',
       naive_body C p s = Val tt s' /\
       greedySet s' = greedySet s ++ [bestId] /\
       remove bestId (remainSet s) = Some (remainSet s') /\
       bestId ∈ remainSet s /\
       (forall a, a ∈ remainSet s ->
                  gain s a <= gain s bestId /\
                  (gain s a = gain s bestId -> (bestId <= a)%nat))).
Proof.
  split.
  - rewrite select_Naive, state_of_finish.
    set (n := length (compute_gradients C p)).
    set (I := fun s : state C =>
                loop_inv n s /\ StronglySorted Nat.lt (remainSet s)).
    apply (while_invariant C I (loop_cond budget) (naive_body C p)).
    + intros s [Hinv Hs] _.
      destruct (remainSet s) as [|a l] eqn:E.
      * destruct (naive_body_spec C p s n Hinv) as [Hnil _].
        rewrite Hnil by done. simpl. split; [done|]. rewrite E. constructor.
      * destruct (naive_body_pick C p n s Hinv)
          as (rows & k & bestId & rest & s' & _ & _ & _ & Hrem & -> & _ & Hr
              & Hinv'); [by rewrite E|].
        simpl. split; [done|]. rewrite Hr.
        eapply remove_sorted; [exact Hrem|]. by rewrite E.
    + split; [apply loop_inv_init|]. simpl. apply sorted_seq.
  - intros n s Hinv Hs Hne.
    destruct (naive_body_pick C p n s Hinv Hne)
      as (rows & k & bestId & rest & s' & Hall & Hk & Hbest & Hrem & Hrun
          & Hg & Hr & _).
    exists bestId, s'. split; [done|]. split; [done|].
    split; [by rewrite Hr|]. split; [apply list_elem_of_lookup; eauto|].
    intros a Ha. apply list_elem_of_lookup in Ha as [j Hj].
    unfold gain.
    rewrite <- (score_matmul _ _ _ (grads_val_curr s) _ _ Hall Hj).
    rewrite <- (score_matmul _ _ _ (grads_val_curr s) _ _ Hall Hbest).
    destruct (argmax_Some (matmul rows (grads_val_curr s)))
      as (k' & Hk' & _ & Hmax).
    { intros E. by rewrite E in Hk. }
    assert (k' = k) by congruence. subst k'.
    split.
    + apply Hmax. rewrite length_matmul.
      rewrite (index_rows_length _ _ _ Hall). by eapply lookup_lt_Some.
    + intros Heq. destruct (le_lt_dec k j) as [Hle|Hlt].
      * by eapply (sorted_lookup_le (remainSet s) j k).
      * pose proof (argmax_first _ _ Hk j Hlt). lia.
Qed.

Lemma naive_step_witness :
  exists bestId s',
    naive_body (Toy.over Toy.ties) tt
      (init_state (C := Toy.over Toy.ties) tt (Toy.fresh Toy.ties))
    = Val tt s' /\
    greedySet s' = [] ++ [bestId] /\
    bestId ∈ [0; 1; 2]%nat.
Proof.
  destruct (proj2 (naive_step (Toy.over Toy.ties) 15 1 tt
                     (Toy.fresh Toy.ties) 0)
              3%nat
              (init_state (C := Toy.over Toy.ties) tt (Toy.fresh Toy.ties))
              (loop_inv_init (Toy.over Toy.ties) tt (Toy.fresh Toy.ties))
              (sorted_seq 3) ltac:(discriminate))
    as (bestId & s' & Hrun & Hg & _ & Hin & _).
  exists bestId, s'. split; [exact Hrun|]. split; [exact Hg|exact Hin].
Defined.

(** X7. A Stochastic iteration whose sample size equals the size of the
    remaining set scores every remaining element: the element it commits
    has a maximal score among all of them, as in a Naive iteration. *)
Theorem stochastic_full_sample (C : collaborators) (p : params C) (n : nat)
    (s : state C) :
  rng_ok C -> loop_inv n s -> remainSet s <> [] ->
  exists bestId s',
    stochastic_body C p (Z.of_nat (length (remainSet s))) s = Val tt s' /\
    greedySet s' = greedySet s ++ [bestId] /\
    remainSet s ≡ₚ bestId :: remainSet s' /\
    forall a, a ∈ remainSet s -> gain s a <= gain s bestId.
Proof.
  intros Hrng Hinv Hne.
  destruct (stochastic_body_spec C p (Z.of_nat (length (remainSet s))) s n
              Hrng Hinv) as (_ & _ & Hgood).
  destruct Hgood
    as (sample & bestId & _ & Hlen & Hnd & Hsub & Hin & Hmax & Hrun).
  { destruct (remainSet s); [done|]. simpl. lia. }
  set (g := snd (np_permutation C (rng s) (length (remainSet s)))) in *.
  destruct (commit_best_inv C p bestId (set_rng g s) n)
    as (s' & Hrun' & _ & Hg & Hperm & _).
  { by apply loop_inv_set_rng. }
  { simpl. by apply Hsub. }
  exists bestId, s'. split; [congruence|]. split; [done|]. split; [done|].
  intros a Ha. apply Hmax.
  assert (Hp : sample ≡ₚ remainSet s).
  { apply submseteq_length_Permutation.
    - by apply NoDup_submseteq.
    - rewrite Hlen. lia. }
  by rewrite Hp.
Qed.

Lemma stochastic_full_sample_witness :
  exists bestId s',
    stochastic_body (Toy.over Toy.pool5) tt 5
      (init_state (C := Toy.over Toy.pool5) tt (Toy.fresh Toy.pool5))
    = Val tt s' /\
    greedySet s' = [] ++ [bestId].
Proof.
  destruct (stochastic_full_sample (Toy.over Toy.pool5) tt 5
              (init_state (C := Toy.over Toy.pool5) tt (Toy.fresh Toy.pool5))
              (pool_rng_ok Toy.pool5)
              (loop_inv_init (Toy.over Toy.pool5) tt (Toy.fresh Toy.pool5))
              ltac:(discriminate))
    as (bestId & s' & Hrun & Hg & _).
  exists bestId, s'. split; [exact Hrun|exact Hg].
Defined.

(** *** The same loop under a larger budget *)

Lemma while_budget_mono (C : collaborators) (body : M C unit) b b' :
  b <= b' ->
  forall fuel (s s1 : state C),
    while fuel (loop_cond b) body s = Val tt s1 ->
    exists k, (k <= fuel)%nat /\
              forall f', while (k + f') (loop_cond b') body s
                         = while f' (loop_cond b') body s1.
Proof.
  intros Hle. induction fuel as [|fuel IH]; intros s s1 Hrun.
  - simpl in Hrun. destruct (loop_cond b s); [done|].
    simplify_eq. exists 0%nat. split; [lia|done].
  - simpl in Hrun. destruct (loop_cond b s) eqn:Hc.
    + unfold bind in Hrun.
      destruct (body s) as [[] s2|e s2|s2] eqn:Hb; try done.
      destruct (IH s2 s1 Hrun) as (k & Hk & Hrun').
      exists (S k). split; [lia|]. intros f'. simpl.
      assert (Hc' : loop_cond b' s = true).
      { unfold loop_cond in *. apply Z.ltb_lt in Hc. apply Z.ltb_lt. lia. }
      rewrite Hc'. unfold bind. rewrite Hb. apply Hrun'.
    + simplify_eq. exists 0%nat. split; [lia|done].
Qed.

Lemma while_extends (C : collaborators) (I : state C -> Prop) cond
    (body : M C unit) :
  steady C I cond body ->
  forall fuel s, I s ->
    greedySet s `prefix_of` greedySet (state_of (while fuel cond body s)).
Proof.
  intros Hbody. induction fuel as [|fuel IH]; intros s Hs; simpl.
  - by destruct (cond s).
  - destruct (cond s) eqn:Hc; [|done].
    destruct (Hbody s Hs Hc) as (HI & Hpre & Hnf). unfold bind.
    destruct (body s) as [[] s'|e s'|s']; simpl in *; try done.
    etrans; [exact Hpre|]. by apply IH.
Qed.

(** X8. The Naive selections are nested: for budgets [b <= b'] within the
    pool size, the list returned for [b] is the first [b] entries of the
    list returned for [b']. *)
Theorem naive_nested (C : collaborators) (r1 r2 b b' : Z) (p : params C)
    (s1 s2 : state C) (fuel : nat) :
  0 <= b <= b' -> b' <= Z.of_nat (length (compute_gradients C p)) ->
  (Z.to_nat b' <= fuel)%nat ->
  exists idxs idxs',
    observe (select C "Naive" r1 b p fuel s1)
    = Returns (idxs, ones (Z.to_nat b)) /\
    observe (select C "Naive" r2 b' p fuel s2)
    = Returns (idxs', ones (Z.to_nat b')) /\
    idxs = take (Z.to_nat b) idxs'.
Proof.
  intros Hb Hb' Hfuel. set (n := length (compute_gradients C p)) in *.
  destruct (naive_run C r1 b p s2 fuel) as (sa & Hruna & Hlena & _ & Hinva);
    [lia|lia|].
  destruct (naive_run C r2 b' p s2 fuel) as (sb & Hrunb & Hlenb & _);
    [lia|lia|].
  exists (greedySet sa), (greedySet sb).
  split; [|split].
  - rewrite (select_Naive_set_rng C r1 r1 b p fuel s2 s1).
    by rewrite observe_res_map, Hruna.
  - by rewrite Hrunb.
  - rewrite select_Naive in Hruna, Hrunb. unfold bind in Hruna, Hrunb.
    destruct (while fuel (loop_cond b) (naive_body C p) (init_state p s2))
      as [[] sa'|e sa'|sa'] eqn:Ea; try done.
    destruct (while fuel (loop_cond b') (naive_body C p) (init_state p s2))
      as [[] sb'|e sb'|sb'] eqn:Eb; try done.
    rewrite finish_eq in Hruna, Hrunb.
    destruct (b <? 0); [done|]. destruct (b' <? 0); [done|].
    assert (sa' = sa) by congruence. assert (sb' = sb) by congruence.
    subst sa' sb'.
    destruct (while_budget_mono C (naive_body C p) b b' ltac:(lia) fuel
                _ _ Ea) as (k & Hk & Hmono).
    specialize (Hmono (fuel - k)%nat).
    replace (k + (fuel - k))%nat with fuel in Hmono by lia.
    rewrite Eb in Hmono.
    pose proof (while_extends C (loop_inv n) (loop_cond b') (naive_body C p)
                  (naive_steady C p n b') (fuel - k) sa Hinva) as Hext.
    rewrite <- Hmono in Hext. simpl in Hext.
    destruct Hext as [tl Htl]. rewrite Htl.
    replace (Z.to_nat b) with (length (greedySet sa)) by lia.
    by rewrite take_app_length.
Qed.

Lemma naive_nested_witness :
  exists idxs idxs',
    observe (select (Toy.over Toy.pool5) "Naive" 15 2 tt 4
                    (Toy.fresh Toy.pool5))
    = Returns (idxs, ones 2) /\
    observe (select (Toy.over Toy.pool5) "Naive" 15 4 tt 4
                    (Toy.fresh Toy.pool5))
    = Returns (idxs', ones 4) /\
    idxs = take 2 idxs'.
Proof.
  refine (naive_nested (Toy.over Toy.pool5) 15 15 2 4 tt
            (Toy.fresh Toy.pool5) (Toy.fresh Toy.pool5) 4 _ _ _).
  - lia.
  - simpl. lia.
  - simpl. lia.
Defined.

(** *** The validation gradient follows the accumulator *)

Ltac crush_body :=
  cbv [bind get modify try ret raise
       set_rng set_greedySet set_remainSet set_numSelected set_grads_currX
       set_grads_per_elem set_grads_val_curr
       grads_per_elem grads_val_curr numSelected greedySet remainSet
       grads_currX rng currX_value];
  repeat (case_match; simplify_eq; try done).

Lemma commit_best_refreshed (C : collaborators) (p : params C) b
    (s s' : state C) :
  commit_best C p b s = Val tt s' ->
  exists v, currX_value s' = Some v /\
            grads_val_curr s' = val_grads_taylor C p v.
Proof.
  unfold commit_best, _update_grads_val, _update_gradients_subset,
    iadd_ref, read_ref.
  destruct s as [G gv ns gs rs cx rg]. crush_body;
    intros; simplify_eq; eauto.
Qed.

Lemma rgreedy_body_refreshed (C : collaborators) (p : params C) sel
    (s s' : state C) :
  rgreedy_body C p sel s = Val tt s' ->
  exists v, currX_value s' = Some v /\
            grads_val_curr s' = val_grads_taylor C p v.
Proof.
  unfold rgreedy_body, _update_grads_val, _update_gradients_subset,
    eval_taylor_modular, iadd_ref, read_ref.
  destruct s as [G gv ns gs rs cx rg]. crush_body;
    intros; simplify_eq; eauto.
Qed.

(** X9. The scores always come from an up-to-date validation gradient. In
    the state of every outcome of [select], for every strategy,
    [self.grads_val_curr] is the first-pass validation gradient as long as
    no iteration has bound [grads_currX], and afterwards the one-step
    re-estimate computed from the value [grads_currX] has at that
    moment. *)
Theorem validation_gradient_refreshed (C : collaborators) (ty : string)
    (r budget : Z) (p : params C) (s0 : state C) (fuel : nat) :
  rng_ok C ->
  refreshed p (state_of (select C ty r budget p fuel s0)).
Proof.
  intros Hrng. rewrite select_eq, state_of_finish. unfold select_loop.
  set (n := length (compute_gradients C p)).
  set (I := fun s : state C => loop_inv n s /\ refreshed p s).
  assert (HI0 : I (init_state p s0)).
  { split; [apply loop_inv_init|]. by left. }
  assert (Hpost : forall s, I s -> refreshed p s) by (by intros s [_ ?]).
  destruct (String.eqb ty "RGreedy").
  { unfold bind, try. destruct (selection_size_of budget r) as [sel|];
      [|by apply Hpost].
    unfold ret. apply Hpost.
    apply (while_invariant C I (loop_cond budget) (rgreedy_body C p sel));
      [|done].
    intros s [Hinv _] Hc. split.
    - by destruct (rgreedy_steady C p sel n budget s Hinv Hc).
    - destruct (rgreedy_body_spec C p sel s n Hinv)
        as (chunk & s' & Hrun & _).
      rewrite Hrun. simpl. right. by eapply rgreedy_body_refreshed. }
  destruct (String.eqb ty "Stochastic").
  { unfold bind, get, subset_size_of.
    destruct (budget =? 0); [by apply Hpost|].
    unfold try. destruct (scaled_log100 _ budget) as [k|];
      [|by apply Hpost].
    unfold ret. apply Hpost.
    apply (while_invariant C I (loop_cond budget) (stochastic_body C p k));
      [|done].
    intros s [Hinv Href] Hc. split.
    - by destruct (stochastic_steady C p k n budget Hrng s Hinv Hc).
    - destruct (stochastic_body_spec C p k s n Hrng Hinv)
        as (Hbad & Hzero & Hgood).
      destruct (Z_lt_le_dec k 0) as [Hneg|Hnn];
        [by rewrite Hbad by (by left)|].
      destruct (Z_lt_le_dec (Z.of_nat (length (remainSet s))) k)
        as [Hbig|Hfit]; [by rewrite Hbad by (by right)|].
      destruct (Z.eq_dec k 0) as [->|Hnz]; [by rewrite Hzero|].
      destruct Hgood as (sample & bestId & _ & _ & _ & _ & _ & _ & Hrun);
        [lia|].
      rewrite Hrun.
      destruct (commit_best C p bestId _) as [[] s'|e s'|s'] eqn:E.
      + simpl. right. by eapply commit_best_refreshed.
      + exfalso.
        destruct (stochastic_step C p k n s Hrng Hinv ltac:(lia))
          as (s2 & Hs2 & _). congruence.
      + exfalso.
        destruct (stochastic_step C p k n s Hrng Hinv ltac:(lia))
          as (s2 & Hs2 & _). congruence. }
  destruct (String.eqb ty "Naive"); [|by apply Hpost].
  apply Hpost.
  apply (while_invariant C I (loop_cond budget) (naive_body C p)); [|done].
  intros s [Hinv Href] Hc. split.
  - by destruct (naive_steady C p n budget s Hinv Hc).
  - destruct (naive_body_spec C p s n Hinv) as [Hnil Hcons].
    destruct (remainSet s) as [|a l] eqn:E; [by rewrite Hnil|].
    destruct Hcons as (bestId & Hin & _ & Hrun); [done|].
    rewrite <- E in Hin.
    destruct (commit_best_inv C p bestId s n Hinv Hin) as (s' & Hrun' & _).
    rewrite Hrun, Hrun'. simpl. right.
    by eapply commit_best_refreshed.
Qed.

Lemma validation_gradient_refreshed_witness :
  grads_val_curr (state_of (select (Toy.over Toy.pool5) "Naive" 15 2 tt 2
                                   (Toy.fresh Toy.pool5)))
  = [1; 0] /\
  refreshed (C := Toy.over Toy.pool5) tt
    (state_of (select (Toy.over Toy.pool5) "Naive" 15 2 tt 2
                      (Toy.fresh Toy.pool5))).
Proof.
  split; [vm_compute; reflexivity|].
  exact (validation_gradient_refreshed (Toy.over Toy.pool5) "Naive" 15 2 tt
           (Toy.fresh Toy.pool5) 2 (pool_rng_ok Toy.pool5)).
Defined.

(** *** What a call inherits from the object *)

Lemma rgreedy_body_set_rng (C : collaborators) (p : params C) sel g
    (s : state C) :
  rgreedy_body C p sel (set_rng g s)
  = res_map (set_rng g) (rgreedy_body C p sel s).
Proof.
  unfold rgreedy_body, _update_grads_val, _update_gradients_subset,
    eval_taylor_modular, iadd_ref, read_ref.
  destruct s as [G gv ns gs rs cx rg].
  cbv [bind get modify try ret raise res_map
       set_rng set_greedySet set_remainSet set_numSelected set_grads_currX
       set_grads_per_elem set_grads_val_curr
       grads_per_elem grads_val_curr numSelected greedySet remainSet
       grads_currX rng].
  repeat (case_match; simplify_eq; try done).
Qed.

Lemma rgreedy_loop_set_rng (C : collaborators) (p : params C) sel budget g
    fuel (s : state C) :
  while fuel (loop_cond budget) (rgreedy_body C p sel) (set_rng g s)
  = res_map (set_rng g)
      (while fuel (loop_cond budget) (rgreedy_body C p sel) s).
Proof.
  revert s. induction fuel as [|fuel IH]; intros s; simpl.
  - change (loop_cond budget (set_rng g s)) with (loop_cond budget s).
    by destruct (loop_cond budget s).
  - change (loop_cond budget (set_rng g s)) with (loop_cond budget s).
    destruct (loop_cond budget s); [|done].
    unfold bind. rewrite rgreedy_body_set_rng.
    destruct (rgreedy_body C p sel s) as [[] s'|e s'|s']; simpl; done.
Qed.

(** X11. A call of [select] inherits nothing from the object but the state
    of numpy's generator: two calls that start with the generator in the
    same state behave identically whatever else the object held, for every
    strategy; under RGreedy the outcome does not depend on the generator
    either. *)
Theorem select_fresh_start (C : collaborators) (ty : string) (r budget : Z)
    (p : params C) (fuel : nat) (s1 s2 : state C) :
  (rng s1 = rng s2 ->
   select C ty r budget p fuel s1 = select C ty r budget p fuel s2) /\
  observe (select C "RGreedy" r budget p fuel s1)
  = observe (select C "RGreedy" r budget p fuel s2).
Proof.
  split.
  - intros Hrng. rewrite !select_eq. unfold init_state. by rewrite Hrng.
  - rewrite !select_RGreedy.
    change (init_state p s2) with (set_rng (rng s2) (init_state p s1)).
    unfold bind, try. destruct (selection_size_of budget r) as [sel|];
      [|done].
    unfold ret. rewrite rgreedy_loop_set_rng.
    destruct (while fuel (loop_cond budget) (rgreedy_body C p sel)
                    (init_state p s1)) as [[] s'|e s'|s']; simpl; try done.
    rewrite !finish_eq. by destruct (budget <? 0).
Qed.

Lemma select_fresh_start_witness :
  select (Toy.over (Toy.ramp 16)) "Stochastic" 15 8 tt 8
         (Toy.fresh (Toy.ramp 16))
  = select (Toy.over (Toy.ramp 16)) "Stochastic" 15 8 tt 8
      (state_of (select (Toy.over (Toy.ramp 16)) "Naive" 15 3 tt 3
                        (Toy.fresh (Toy.ramp 16)))).
Proof.
  refine (proj1 (select_fresh_start (Toy.over (Toy.ramp 16)) "Stochastic"
                   15 8 tt 8 (Toy.fresh (Toy.ramp 16))
                   (state_of (select (Toy.over (Toy.ramp 16)) "Naive" 15 3
                                     tt 3 (Toy.fresh (Toy.ramp 16))))) _).
  vm_compute. reflexivity.
Defined.

(** *** Where the Naive and Stochastic loops write *)

Lemma commit_best_confined (C : collaborators) (p : params C) best
    (s : state C) (G0 : matrix) :
  loop_inv (length G0) s -> best ∈ remainSet s ->
  numSelected s = Z.of_nat (length (greedySet s)) ->
  confined G0 s ->
  exists s', commit_best C p best s = Val tt s' /\
             loop_inv (length G0) s' /\
             numSelected s' = Z.of_nat (length (greedySet s')) /\
             confined G0 s'.
Proof.
  intros Hinv Hin Hnum Hconf.
  destruct (remove_Some _ _ Hin) as (rest & Hrem & _).
  pose proof (inv_remain_lt C s _ best Hinv Hin) as Hlt.
  destruct (commit_best_inv C p best s _ Hinv Hin)
    as (s' & Hrun & Hinv' & Hg & _ & Hn & _).
  destruct (commit_best_spec C p best s rest Hrem Hlt)
    as (s'' & Hrun' & _ & _ & _ & _ & _ & _ & Hfirst & Hlater).
  { intros Hpos. destruct Hinv as (_ & Hl & Hb). rewrite Hl. by apply Hb. }
  assert (s'' = s') by congruence. subst s''.
  exists s'. split; [done|]. split; [done|]. split.
  { rewrite Hn, Hg, length_app. simpl. lia. }
  destruct Hinv as (_ & Hlen & _).
  unfold confined in *. rewrite Hg.
  destruct (greedySet s) as [|b1 sel] eqn:E; simpl in *.
  - destruct Hfirst as [Hx Hc]; [lia|]. split; [done|].
    rewrite Hc, Hconf.
    destruct (lookup_lt_is_Some_2 G0 best) as [row Hrow]; [congruence|].
    rewrite Hrow. simpl. symmetry. by apply list_insert_id.
  - destruct Hconf as [Hx Hc].
    destruct (Hlater b1 ltac:(lia) Hx) as (row & e & Hrow & He & Hx' & Hc').
    split; [done|].
    assert (Hne : b1 <> best).
    { intros ->. destruct (inv_NoDup C s' _ Hinv') as (Hnd & _).
      rewrite Hg in Hnd. apply NoDup_cons in Hnd as [Hnot _].
      apply Hnot. apply elem_of_app. right. by left. }
    assert (Hb1 : (b1 < length G0)%nat).
    { apply lookup_lt_Some in Hrow. by rewrite Hc, length_insert in Hrow. }
    rewrite Hc in Hrow, He.
    rewrite list_lookup_insert_eq in Hrow by done.
    rewrite list_lookup_insert_ne in He by done.
    rewrite Hc', Hc, list_insert_insert_eq.
    rewrite map_app, fold_left_app. simpl. rewrite He. simpl.
    by simplify_eq.
Qed.

Lemma confined_set_rng (C : collaborators) G0 g (s : state C) :
  confined G0 s -> confined G0 (set_rng g s).
Proof. done. Qed.

Lemma confined_run (C : collaborators) (ty : string) (r budget : Z)
    (p : params C) (s0 : state C) (fuel : nat) :
  rng_ok C -> ty = "Naive"%string \/ ty = "Stochastic"%string ->
  loop_inv (length (compute_gradients C p))
           (state_of (select C ty r budget p fuel s0)) /\
  confined (compute_gradients C p)
           (state_of (select C ty r budget p fuel s0)).
Proof.
  intros Hrng Hty. set (G0 := compute_gradients C p).
  set (I := fun s : state C =>
              loop_inv (length G0) s /\
              numSelected s = Z.of_nat (length (greedySet s)) /\
              confined G0 s).
  assert (HI0 : I (init_state p s0)).
  { split; [apply loop_inv_init|]. split; done. }
  assert (Hpost : forall s, I s -> loop_inv (length G0) s /\ confined G0 s)
    by (by intros s (? & _ & ?)).
  destruct Hty as [-> | ->].
  - rewrite select_Naive, state_of_finish. apply Hpost.
    apply (while_invariant C I (loop_cond budget) (naive_body C p)); [|done].
    intros s (Hinv & Hnum & Hconf) _.
    destruct (naive_body_spec C p s _ Hinv) as [Hnil Hcons].
    destruct (remainSet s) as [|a l] eqn:E; [by rewrite Hnil|].
    destruct Hcons as (bestId & Hin & _ & ->); [done|].
    rewrite <- E in Hin.
    destruct (commit_best_confined C p bestId s G0 Hinv Hin Hnum Hconf)
      as (s' & -> & ? & ? & ?).
    done.
  - rewrite select_Stochastic, state_of_finish.
    unfold bind, subset_size_of.
    destruct (budget =? 0); [by apply Hpost|].
    unfold try. destruct (scaled_log100 _ budget) as [k|];
      [|by apply Hpost].
    unfold ret. apply Hpost.
    apply (while_invariant C I (loop_cond budget) (stochastic_body C p k));
      [|done].
    intros s (Hinv & Hnum & Hconf) _.
    destruct (stochastic_body_spec C p k s _ Hrng Hinv)
      as (Hbad & Hzero & Hgood).
    destruct (Z_lt_le_dec k 0) as [Hneg|Hnn];
      [by rewrite Hbad by (by left)|].
    destruct (Z_lt_le_dec (Z.of_nat (length (remainSet s))) k)
      as [Hbig|Hfit]; [by rewrite Hbad by (by right)|].
    destruct (Z.eq_dec k 0) as [->|Hnz]; [by rewrite Hzero|].
    destruct Hgood as (sample & bestId & _ & _ & _ & Hsub & Hin & _ & ->);
      [lia|].
    set (g := snd (np_permutation C (rng s) (length (remainSet s)))).
    destruct (commit_best_confined C p bestId (set_rng g s) G0)
      as (s' & -> & ? & ? & ?); try done.
    simpl. by apply Hsub.
Qed.

(** X12. The in-place update of the Naive and Stochastic loops is confined
    to one row. In the state of every outcome of such a run the cache rows
    of all remaining elements, and of every element other than the first
    pick, are the rows [compute_gradients] produced, so every score is
    computed from unmodified rows; and once an element has been picked
    [grads_currX] denotes the sum of the rows [compute_gradients] produced
    for the selected elements. *)
Theorem overwrite_confined (C : collaborators) (ty : string) (r budget : Z)
    (p : params C) (s0 : state C) (fuel : nat) :
  rng_ok C -> ty = "Naive"%string \/ ty = "Stochastic"%string ->
  Forall (fun row => length row = D C) (compute_gradients C p) ->
  (forall i, i ∈ remainSet (state_of (select C ty r budget p fuel s0)) ->
             grads_per_elem (state_of (select C ty r budget p fuel s0)) !! i
             = compute_gradients C p !! i) /\
  (forall i, head (greedySet (state_of (select C ty r budget p fuel s0)))
             <> Some i ->
             grads_per_elem (state_of (select C ty r budget p fuel s0)) !! i
             = compute_gradients C p !! i) /\
  (greedySet (state_of (select C ty r budget p fuel s0)) <> [] ->
   currX_value (state_of (select C ty r budget p fuel s0))
   = Some (cache_sum (init_state p s0)
             (greedySet (state_of (select C ty r budget p fuel s0))))).
Proof.
  intros Hrng Hty Hwide.
  destruct (confined_run C ty r budget p s0 fuel Hrng Hty) as [Hinv Hconf].
  set (s := state_of (select C ty r budget p fuel s0)) in *.
  set (G0 := compute_gradients C p) in *.
  assert (Hother : forall i, head (greedySet s) <> Some i ->
                             grads_per_elem s !! i = G0 !! i).
  { intros i Hi. unfold confined in Hconf.
    destruct (greedySet s) as [|b1 rest]; [by rewrite Hconf|].
    destruct Hconf as [_ ->]. apply list_lookup_insert_ne.
    intros ->. by apply Hi. }
  split; [|split; [done|]].
  - intros i Hi. apply Hother. intros Hhd.
    destruct (inv_NoDup C s _ Hinv) as (_ & _ & Hdisj).
    apply (Hdisj i); [|done].
    destruct (greedySet s); simpl in Hhd; simplify_eq. by left.
  - intros Hne. unfold confined in Hconf. unfold currX_value, cache_sum.
    destruct (greedySet s) as [|b1 rest] eqn:E; [done|].
    destruct Hconf as [-> ->]. simpl.
    assert (Hb1 : (b1 < length G0)%nat).
    { destruct Hinv as (Hpart & _).
      assert (Hin : b1 ∈ seq 0 (length G0)).
      { rewrite <- Hpart, E. apply elem_of_app. left. by left. }
      apply elem_of_seq in Hin. lia. }
    rewrite list_lookup_insert_eq by done. f_equal.
    unfold sum_dim0. simpl. fold G0. rewrite zeros_vadd; [done|].
    destruct (lookup_lt_is_Some_2 G0 b1 Hb1) as [row Hrow].
    rewrite Hrow. simpl. rewrite Forall_forall in Hwide. apply Hwide.
    apply list_elem_of_lookup. eauto.
Qed.

Lemma overwrite_confined_witness :
  currX_value (state_of (select (Toy.over Toy.pool5) "Naive" 15 3 tt 3
                                (Toy.fresh Toy.pool5)))
  = Some (cache_sum
            (init_state (C := Toy.over Toy.pool5) tt (Toy.fresh Toy.pool5))
            (greedySet
               (state_of (select (Toy.over Toy.pool5) "Naive" 15 3 tt 3
                                 (Toy.fresh Toy.pool5))))).
Proof.
  refine (proj2 (proj2
            (overwrite_confined (Toy.over Toy.pool5) "Naive" 15 3 tt
               (Toy.fresh Toy.pool5) 3 (pool_rng_ok Toy.pool5)
               (or_introl eq_refl) _)) _).
  - repeat constructor.
  - vm_compute. discriminate.
Defined.

(** *** [_update_gradients_subset] on its own *)



End Extras.
